(** * w3protocol: access capabilities, spaces and the in-memory driver

    A shallow embedding of the derivation rules of the access capabilities
    ([capabilities/src/access.js]), of the space helpers
    ([access-client/src/space.js]), of the in-memory storage driver
    ([access/drivers/memory]) and of the authorization workflow, followed by
    the properties the specification states about them. *)

From Stdlib Require Import ZArith String List.
From stdpp Require Import base option list strings pretty gmap fin_maps.

Local Open Scope string_scope.

(** ** JavaScript values used by the sources *)

Module Js.

(** [Array.prototype.join] on an array of strings. *)
Fixpoint join (sep : string) (xs : list string) : string :=
  match xs with
  | [] => ""
  | [x] => x
  | x :: rest => x +:+ sep +:+ join sep rest
  end.

(** A [Set]: membership is SameValueZero (on strings: equality), iteration
    follows insertion order, and adding a present element changes nothing.
    The list holds the elements in insertion order. *)
Definition JsSet (A : Type) : Type := list A.

Section SetModel.
Context {A : Type} `{EqDecision A}.

Definition set_empty : JsSet A := [].

Definition set_has (s : JsSet A) (e : A) : bool := bool_decide (e ∈ s).

Definition set_add (s : JsSet A) (e : A) : JsSet A :=
  if set_has s e then s else (s ++ [e])%list.

(** [new Set(iterable)] *)
Definition set_from (xs : list A) : JsSet A :=
  foldl set_add set_empty xs.

Definition set_size (s : JsSet A) : nat := length s.

(** [[...set]] *)
Definition set_spread (s : JsSet A) : list A := s.
End SetModel.

End Js.

(** ** [capabilities/src/utils.js] *)

Module Utils.

(** The [Failure] values a derivation may return.  [Failure_new] is
    [new Failure(message)] as access.js writes it; the other two are the
    failures raised by the helpers of utils.js, kept structured. *)
Inductive Failure : Type :=
| Failure_new (message : string)
| Failure_with (can child_with parent_with : string)
| Failure_constraint (child parent constraint : string).

(** The result of one check: [true] or a [Failure]. *)
Inductive Check : Type :=
| Pass
| Fail (f : Failure).

(** Modelled from the spec: utils.js is not among the sources.  [fail]
    turns a passed check into a falsy value and keeps a [Failure], so that
    [fail(a) || fail(b) || true] composes checks left to right and stops at
    the first [Failure]. *)
Definition fail (value : Check) : option Failure :=
  match value with
  | Pass => None
  | Fail f => Some f
  end.

(** [a || b] on the results of [fail]. *)
Definition or_else (a b : option Failure) : option Failure :=
  match a with
  | Some f => Some f
  | None => b
  end.

(** The closing [|| true]. *)
Definition or_true (a : option Failure) : Check :=
  match a with
  | Some f => Fail f
  | None => Pass
  end.

(** A parsed capability [{ can, with, nb }]. *)
Record ParsedCapability (NB : Type) : Type := MkCapability {
  cap_can : string;
  cap_with : string;
  cap_nb : NB
}.
Arguments MkCapability {NB} _ _ _.
Arguments cap_can {NB} _.
Arguments cap_with {NB} _.
Arguments cap_nb {NB} _.

(** Modelled from the spec: utils.js is not among the sources.
    [equalWith]: the claim's resource must literally equal the proof's
    resource. *)
Definition equalWith {NB} (child parent : ParsedCapability NB) : Check :=
  if String.eqb (cap_with child) (cap_with parent) then Pass
  else Fail (Failure_with (cap_can child) (cap_with child) (cap_with parent)).

(** Modelled from the spec: utils.js is not among the sources.  [equal]
    compares a field of the claim with the same field of the proof; the
    third argument names the constraint in the failure. *)
Definition equal (child parent constraint : string) : Check :=
  if String.eqb child parent then Pass
  else Fail (Failure_constraint child parent constraint).

End Utils.

(** ** [capabilities/src/access.js] *)

Module Access.
Import Js Utils.

(** A content-addressed link; the sources only ever read its string form. *)
Record Link : Type := MkLink { toString : string }.

(** [CapabilityRequest = Schema.struct({ can: Schema.string() })] *)
Record CapabilityRequest : Type := MkRequest { can : string }.

(** [AuthorizationRequest]: the [nb] of access/authorize. *)
Record AuthorizationRequest : Type := MkAuthorizationRequest {
  iss : string;
  att : list CapabilityRequest
}.

(** The [nb] of access/confirm. *)
Record ConfirmRequest : Type := MkConfirmRequest {
  confirm_iss : string;
  confirm_aud : string;
  confirm_att : list CapabilityRequest
}.

(** The [nb] of access/delegate: a dictionary of links, here the entries
    in the order [Object.values] enumerates them; the field may be absent
    ([ParsedAccessDelegate] declares it optional). *)
Record DelegateNb : Type := MkDelegateNb {
  delegations : option (list (string * Link))
}.

(** [setDifference(minuend, subtrahend)] *)
Definition setDifference (minuend : list string)
    (subtrahend : JsSet string) : JsSet string :=
  foldl (fun difference e =>
           if negb (set_has subtrahend e) then set_add difference e
           else difference)
        set_empty minuend.

(** [delegatedCids(delegate)]: the strings the generator yields. *)
Definition delegatedCids (delegate : ParsedCapability DelegateNb)
  : list string :=
  map (fun d => toString (snd d))
      (default [] (delegations (cap_nb delegate))).

(** [subsetsNbDelegations(claim, proof)] *)
Definition subsetsNbDelegations (claim proof : ParsedCapability DelegateNb)
  : Check :=
  let missingProofs :=
    setDifference (delegatedCids claim) (set_from (delegatedCids proof)) in
  if Nat.ltb 0 (set_size missingProofs) then
    Fail (Failure_new
            ("unauthorized nb.delegations "
               +:+ join ", " (set_spread missingProofs)))
  else Pass.

(** [subsetCapabilities(claim, proof)] *)
Definition subsetCapabilities (claim proof : list CapabilityRequest)
  : Check :=
  let allowed := set_from (map can proof) in
  if set_has allowed "*" then Pass
  else
    let escalated := setDifference (map can claim) allowed in
    if Nat.ltb 0 (set_size escalated) then
      Fail (Failure_new
              ("unauthorized nb.att.can "
                 +:+ join ", " (set_spread escalated)))
    else Pass.

(** [authorize.derives] *)
Definition authorize_derives
    (child parent : ParsedCapability AuthorizationRequest) : Check :=
  or_true
    (or_else (fail (equalWith child parent))
    (or_else (fail (equal (iss (cap_nb child)) (iss (cap_nb parent)) "iss"))
             (fail (subsetCapabilities (att (cap_nb child))
                                       (att (cap_nb parent)))))).

(** [confirm.derives] *)
Definition confirm_derives
    (claim proof : ParsedCapability ConfirmRequest) : Check :=
  or_true
    (or_else (fail (equalWith claim proof))
    (or_else (fail (equal (confirm_iss (cap_nb claim))
                          (confirm_iss (cap_nb proof)) "iss"))
    (or_else (fail (equal (confirm_aud (cap_nb claim))
                          (confirm_aud (cap_nb proof)) "aud"))
             (fail (subsetCapabilities (confirm_att (cap_nb claim))
                                       (confirm_att (cap_nb proof))))))).

(** [delegate.derives] *)
Definition delegate_derives (claim proof : ParsedCapability DelegateNb)
  : Check :=
  or_true
    (or_else (fail (equalWith claim proof))
             (fail (subsetsNbDelegations claim proof))).

End Access.

(** ** UCAN delegations, as [@ucanto/core] issues them *)

Module Ucan.

Definition DID : Type := string.
Definition bytes : Type := list Byte.byte.

(** [UTCUnixTimestamp | Infinity] *)
Inductive Expiration : Type :=
| At (t : Z)
| Infinity.

(** A capability of a delegation: [{ can, with }] and, when present,
    the caveats [nb] (here: fields holding links). *)
Record Capability : Type := MkCap {
  can : string;
  with_ : string;
  nb : option (gmap string Access.Link)
}.

(** A fact [{ space: { name } }]. *)
Inductive Fact : Type :=
| Fact_space (name : string).

Record Delegation : Type := MkDelegation {
  issuer : DID;
  audience : DID;
  capabilities : list Capability;
  expiration : Expiration;
  facts : list Fact;
  proofs : list Access.Link
}.

(** The [Principal] interface: an object with a [did()] method. *)
Record Principal : Type := MkPrincipal { did : DID }.

(** The options object handed to [delegate]; [o_expiration = None] is an
    options object without an [expiration] key. *)
Record DelegationOptions : Type := MkOptions {
  o_issuer : Principal;
  o_audience : Principal;
  o_capabilities : list Capability;
  o_expiration : option Expiration;
  o_facts : list Fact
}.

(** [UCAN.issue]'s default [lifetimeInSeconds]. *)
Definition DEFAULT_LIFETIME : Z := 30.

(** [delegate(options)] of [@ucanto/core], read at clock [now]: the
    delegation records the DIDs of issuer and audience and the given
    capabilities, facts and expiration; without an expiration it expires
    after the default lifetime. *)
Definition delegate (now : Z) (options : DelegationOptions) : Delegation :=
  {| issuer := did (o_issuer options);
     audience := did (o_audience options);
     capabilities := o_capabilities options;
     expiration := default (At (now + DEFAULT_LIFETIME))
                           (o_expiration options);
     facts := o_facts options;
     proofs := [] |}.

(** JavaScript truthiness of an expiration. *)
Definition truthy (e : Expiration) : bool :=
  match e with
  | At t => negb (Z.eqb t 0)
  | Infinity => true
  end.

End Ucan.

(** ** [access-client/src/space.js] *)

Module Space.
Import Ucan.

(** An ed25519 signer: its secret key and its verification key. *)
Record EdSigner : Type := MkSigner {
  secret : bytes;
  verifier : bytes
}.

(** What space.js uses of [@ucanto/principal/ed25519]. *)
Class Ed25519 : Type := {
  (** the public key of a secret key *)
  getPublicKey : bytes → bytes;
  (** the [did:key] of a public key *)
  did_key : bytes → DID;
  (** [signer.encode()] *)
  encode : EdSigner → bytes
}.

(** What space.js uses of [@scure/bip39]; both functions throw on input
    they do not accept ([None]). *)
Class Bip39 : Type := {
  Wordlist : Type;
  wordlist : Wordlist;
  entropyToMnemonic : bytes → Wordlist → option string;
  mnemonicToEntropy : string → Wordlist → option bytes
}.

(** [Model]: [{ signer, name }]. *)
Record Model : Type := MkModel {
  signer : EdSigner;
  name : string
}.

(** [API.Access]: the abilities of an access object in the order
    [Object.entries] lists them, each with its details ([Some tt] for an
    object, [None] for [undefined]). *)
Definition AccessMap : Type := list (string * option unit).

(** The options of [createAuthorization]; [None] is an absent (or
    [undefined]) property, for which the default applies. *)
Record AuthorizationOptions : Type := MkAuthorizationOptions {
  agent : Principal;
  access : option AccessMap;
  opt_expiration : option Expiration
}.

(** [SESSION_LIFETIME = 60 * 60 * 24 * 365] *)
Definition SESSION_LIFETIME : Z := 60 * 60 * 24 * 365.

(** [toCapabilities(allow)] *)
Definition toCapabilities (allow : list (string * AccessMap))
  : list Capability :=
  flat_map
    (fun '(subject, access) =>
       flat_map
         (fun '(can, details) =>
            match details with
            | Some _ => [MkCap can subject None]
            | None => []
            end)
         access)
    allow.

Section WithLibraries.
Context `{Ed25519} `{Bip39}.

(** [ED25519.derive(secret)]: rejects a secret that is not 32 bytes. *)
Definition derive (secret : bytes) : option EdSigner :=
  if Nat.eqb (length secret) 32
  then Some (MkSigner secret (getPublicKey secret))
  else None.

(** [signer.did()] *)
Definition signer_did (s : EdSigner) : DID := did_key (verifier s).

(** The signer as the principal it is for [delegate]. *)
Definition principal (s : EdSigner) : Principal :=
  MkPrincipal (signer_did s).

(** [signer.withDID(id)]: the same key under another DID. *)
Definition withDID (s : EdSigner) (id : DID) : Principal :=
  MkPrincipal id.

(** [generate({ name })]; [random] is the fresh secret key
    [ED25519.generate] draws. *)
Definition generate (random : bytes) (name : string) : option Model :=
  match derive random with
  | Some signer => Some (MkModel signer name)
  | None => None
  end.

(** [fromMnemonic(mnemonic, { name })] *)
Definition fromMnemonic (mnemonic : string) (name : string)
  : option Model :=
  match mnemonicToEntropy mnemonic wordlist with
  | Some secret =>
      match derive secret with
      | Some signer => Some (MkModel signer name)
      | None => None
      end
  | None => None
  end.

(** [toMnemonic({ signer })] *)
Definition toMnemonic (space : Model) : option string :=
  entropyToMnemonic (secret (signer space)) wordlist.

(** [createRecovery({ signer, name }, account)] *)
Definition createRecovery (now : Z) (space : Model) (account : DID)
  : Delegation :=
  delegate now
    {| o_issuer := principal (signer space);
       o_audience := withDID (signer space) account;
       o_capabilities :=
         [MkCap "*" (signer_did (signer space)) None];
       o_expiration := Some Infinity;
       o_facts := [Fact_space (name space)] |}.

(** [createAuthorization({ signer, name }, { agent, access, expiration })];
    [spaceAccess] is [Access.spaceAccess] of access.js and [now] the
    reading of [UCAN.now()]. *)
Definition createAuthorization (spaceAccess : AccessMap) (now : Z)
    (space : Model) (options : AuthorizationOptions) : Delegation :=
  let access := default spaceAccess (access options) in
  let expiration :=
    default (At (now + SESSION_LIFETIME)) (opt_expiration options) in
  delegate now
    {| o_issuer := principal (signer space);
       o_audience := agent options;
       o_capabilities :=
         toCapabilities [(signer_did (signer space), access)];
       o_expiration :=
         if truthy expiration then Some expiration else None;
       o_facts := [Fact_space (name space)] |}.

(** [OwnedSpace.withName(name)] on the fields of the instance. *)
Definition withName (space : Model) (name : string) : Model :=
  MkModel (signer space) name.

(** The instances of [OwnedSpace]: the class is private to the module,
    and these are its three [new OwnedSpace(...)]. *)
Inductive OwnedSpace : Model → Prop :=
| Owned_generate random name space :
    generate random name = Some space → OwnedSpace space
| Owned_fromMnemonic mnemonic name space :
    fromMnemonic mnemonic name = Some space → OwnedSpace space
| Owned_withName space name :
    OwnedSpace space → OwnedSpace (withName space name).
End WithLibraries.

End Space.

(** ** Objects with identity *)

Module Store.
Import Ucan.

(** References to objects. *)
Definition loc : Type := positive.

(** The values a property can hold. *)
Inductive Value : Type :=
| VUndefined
| VNull
| VBool (b : bool)
| VNumber (n : Z)
| VString (s : string)
| VRef (l : loc)
| VSigner (s : Space.EdSigner)
| VDelegation (d : Delegation).

(** The class an object was constructed by. *)
Inductive Class : Type :=
| PlainObject
| OwnedSpaceClass
| SharedSpaceClass.

(** An object: its class and its own enumerable properties. *)
Record Obj : Type := MkObj {
  class : Class;
  props : gmap string Value
}.

(** The objects alive, by reference. *)
Abbreviation Heap := (gmap loc Obj).

(** Allocation of a new object: a reference not in use. *)
Definition alloc (o : Obj) (σ : Heap) : loc * Heap :=
  let l := fresh (dom σ) in (l, <[l := o]> σ).

(** [o.k] for the object at [l]. *)
Definition get (σ : Heap) (l : loc) (k : string) : Value :=
  match σ !! l with
  | Some o => default VUndefined (props o !! k)
  | None => VUndefined
  end.

(** The properties [{ ...v }] copies where the sources spread: the own
    enumerable properties of an object, and none for [undefined] or [null]
    (the sources spread the meta object of a space and the record handed
    to a driver; no other kind of value is modelled as having properties). *)
Definition spread (σ : Heap) (v : Value) : gmap string Value :=
  match v with
  | VRef l =>
      match σ !! l with
      | Some o => props o
      | None => ∅
      end
  | _ => ∅
  end.

(** [v ?? fallback] *)
Definition nullish (v fallback : Value) : Value :=
  match v with
  | VUndefined | VNull => fallback
  | _ => v
  end.

(** [Object.keys(o).length] for the object at [l]. *)
Definition keys_length (σ : Heap) (l : loc) : nat :=
  match σ !! l with
  | Some o => size (props o)
  | None => 0
  end.

End Store.

(** ** The classes of space.js, on the object store *)

Module SpaceObjects.
Import Store.

(** [new OwnedSpace({ signer, name })] *)
Definition OwnedSpace_new (signer name : Value) (σ : Heap) : loc * Heap :=
  alloc (MkObj OwnedSpaceClass
               (<["signer" := signer]> (<["name" := name]> ∅))) σ.

(** [OwnedSpace.withName(name)] *)
Definition OwnedSpace_withName (this : loc) (name : string) (σ : Heap)
  : loc * Heap :=
  OwnedSpace_new (get σ this "signer") (VString name) σ.

(** [new SharedSpace({ id, delegation, meta })] *)
Definition SharedSpace_new (id delegation meta : Value) (σ : Heap)
  : loc * Heap :=
  alloc (MkObj SharedSpaceClass
               (<["delegation" := delegation]>
                  (<["id" := id]> (<["meta" := meta]> ∅)))) σ.

(** [SharedSpace.withName(name)]: the object literal
    [{ ...this.meta, name }] is allocated first, then the new space. *)
Definition SharedSpace_withName (this : loc) (name : string) (σ : Heap)
  : loc * Heap :=
  let id := get σ this "id" in
  let delegation := get σ this "delegation" in
  let '(meta, σ1) :=
    alloc (MkObj PlainObject
                 (<["name" := VString name]>
                    (spread σ (get σ this "meta")))) σ in
  SharedSpace_new id delegation (VRef meta) σ1.

(** [get name()] of [SharedSpace]: [this.meta.name ?? '']; reading a
    property of [undefined] or [null] throws ([None]), and the other values
    that are not objects have no [name]. *)
Definition SharedSpace_name (σ : Heap) (this : loc) : option Value :=
  match get σ this "meta" with
  | VRef meta => Some (nullish (get σ meta "name") (VString ""))
  | VUndefined | VNull => None
  | _ => Some (VString "")
  end.

(** The own properties of [this.meta]. *)
Definition meta_of (σ : Heap) (this : loc) : gmap string Value :=
  spread σ (get σ this "meta").

End SpaceObjects.

(** ** [access/drivers/memory]: [MemoryDriver] *)

Module Memory.
Import Store.

(** The state of a driver: its private [#data], [undefined] ([None]) or
    a reference to a record. *)
Record MemoryDriver : Type := MkDriver { data : option loc }.

(** [constructor()] *)
Definition new : MemoryDriver := MkDriver None.

(** [reset()] *)
Definition reset (this : MemoryDriver) (σ : Heap) : MemoryDriver * Heap :=
  (MkDriver None, σ).

(** [save(data)]: [this.#data = { ...data }] *)
Definition save (this : MemoryDriver) (record : loc) (σ : Heap)
  : MemoryDriver * Heap :=
  let '(copy, σ1) :=
    alloc (MkObj PlainObject (spread σ (VRef record))) σ in
  (MkDriver (Some copy), σ1).

(** [load()]: the reference it resolves to, [None] for [undefined]. *)
Definition load (this : MemoryDriver) (σ : Heap) : option loc :=
  match data this with
  | None => None
  | Some l => if Nat.eqb (keys_length σ l) 0 then None else Some l
  end.

End Memory.

(** ** The authorization workflow *)

Module Workflow.
Import Ucan.

(** Modelled from the spec: the service that handles access/authorize,
    the confirmation link and access/claim is not among the sources (only
    its tests are).  A pending confirmation records the requesting agent
    and its authorization request [{ iss: account, att }]. *)
Record Pending : Type := MkPending {
  agent : DID;
  request : Access.AuthorizationRequest
}.

(** Modelled from the spec: the states of a pending confirmation that the
    service stores, [AwaitingConfirmation] and [Confirmed]. *)
Inductive Phase : Type :=
| AwaitingConfirmation
| Confirmed.

(** Modelled from the spec: the two stores of the orchestrator, the
    pending confirmations by identifier and the delegations waiting to be
    claimed by principal identifier. *)
Record State : Type := MkState {
  confirmations : gmap positive (Pending * Phase);
  queue : gmap DID (list Delegation)
}.

(** Modelled from the spec: both stores empty. *)
Definition initial : State := MkState ∅ ∅.

Section Service.
(** The trusted authority and the link of a delegation. *)
Variable authority : DID.
Variable cid : Delegation → Access.Link.

(** Modelled from the spec: [Requested], the agent submits its request
    and the orchestrator stores a pending confirmation under a fresh
    identifier; nothing is issued yet. *)
Definition authorize (agent : DID)
    (request : Access.AuthorizationRequest) (st : State)
  : positive * State :=
  let id := fresh (dom (confirmations st)) in
  (id,
   MkState (<[id := (MkPending agent request, AwaitingConfirmation)]>
              (confirmations st))
           (queue st)).

(** Modelled from the spec: the authorization Delegation, issuer =
    account, audience = requesting agent, capabilities = the requested
    abilities on the session resource [ucan:*], expiration = infinite. *)
Definition authorization (p : Pending) : Delegation :=
  {| issuer := Access.iss (request p);
     audience := agent p;
     capabilities :=
       map (fun r => MkCap (Access.can r) "ucan:*" None)
           (Access.att (request p));
     expiration := Infinity;
     facts := [];
     proofs := [] |}.

(** Modelled from the spec: the Attestation, issued by the authority to
    the agent, whose sole capability is
    [{ can: "ucan/attest", with: authority, nb: { proof } }] with
    [proof] the link of the attested Delegation. *)
Definition attestation (p : Pending) (attested : Delegation)
  : Delegation :=
  {| issuer := authority;
     audience := agent p;
     capabilities :=
       [MkCap "ucan/attest" authority
              (Some (<["proof" := cid attested]> ∅))];
     expiration := Infinity;
     facts := [];
     proofs := [] |}.

(** Modelled from the spec: on confirmation the orchestrator issues two
    delegations, the authorization and the attestation that references its
    link. *)
Definition issued (p : Pending) : list Delegation :=
  let a := authorization p in [a; attestation p a].

(** Modelled from the spec: the store's [put(identifier, Delegation)]. *)
Definition put (id : DID) (ds : list Delegation)
    (q : gmap DID (list Delegation)) : gmap DID (list Delegation) :=
  <[id := (default [] (q !! id) ++ ds)%list]> q.

(** Modelled from the spec: the confirmation action.  On a pending
    identifier that awaits confirmation it issues the two delegations,
    queues them for the requesting agent and marks the confirmation
    [Confirmed]; repeated, it is a no-op success with the same two
    delegations; on an unknown identifier it fails ([None]). *)
Definition confirm (id : positive) (st : State)
  : option (list Delegation * State) :=
  match confirmations st !! id with
  | Some (p, AwaitingConfirmation) =>
      Some (issued p,
            MkState (<[id := (p, Confirmed)]> (confirmations st))
                    (put (agent p) (issued p) (queue st)))
  | Some (p, Confirmed) => Some (issued p, st)
  | None => None
  end.

(** Modelled from the spec: the claim action returns the delegations
    queued for the identifier and removes them from the queue. *)
Definition claim (id : DID) (st : State) : list Delegation * State :=
  (default [] (queue st !! id),
   MkState (confirmations st) (delete id (queue st))).
End Service.

End Workflow.

(** ** The default derivation rule *)

Module Evaluator.

Section Capabilities.
(** The values of params. *)
Variable Value : Type.

(** Modelled from the spec: the derivation rule evaluator of section 4.3 is
    not among the sources, which hold only the capabilities and overrides
    of access.js.  A capability is the triple
    [{ action, resource, params }] of section 3. *)
Record Capability : Type := MkTriple {
  action : string;
  resource : string;
  params : gmap string Value
}.

(** Modelled from the spec: the proof's action is the wildcard of a
    namespace that holds the claim's action; ["access/*"] matches any
    action beginning with [access/] (section 4.2). *)
Definition wildcard_of (proof_action claim_action : string) : bool :=
  let n := String.length proof_action in
  Nat.leb 2 n
  && String.eqb (String.substring (n - 2) 2 proof_action) "/*"
  && String.prefix (String.substring 0 (n - 1) proof_action) claim_action.

(** Modelled from the spec: "claim.params contains no field whose value
    escalates beyond proof.params (field-specific; absent in proof.params
    implies unconstrained)".  [escalates field claimed granted] is the
    field-specific comparison. *)
Definition no_escalation (escalates : string → Value → Value → bool)
    (claim proof : Capability) : bool :=
  forallb (fun '(field, claimed) =>
             match params proof !! field with
             | Some granted => negb (escalates field claimed granted)
             | None => true
             end)
          (map_to_list (params claim)).

(** Modelled from the spec: the default rule of section 4.3, [ok] iff
    [claim.resource == proof.resource] and ([proof.action] is the wildcard
    of the matching namespace or [claim.action == proof.action]) and no
    param of the claim escalates. *)
Definition derives (escalates : string → Value → Value → bool)
    (claim proof : Capability) : bool :=
  String.eqb (resource claim) (resource proof)
  && (wildcard_of (action proof) (action claim)
      || String.eqb (action claim) (action proof))
  && no_escalation escalates claim proof.
End Capabilities.

Arguments MkTriple {Value} _ _ _.
Arguments action {Value} _.
Arguments resource {Value} _.
Arguments params {Value} _.
Arguments no_escalation {Value} _ _ _.
Arguments derives {Value} _ _ _.

(** [access] of access.js: [can: 'access/*'], [with] a [did:] URI, no [nb]
    and no [derives] of its own.  The capability it parses on [resource],
    as a triple. *)
Definition access (resource : string) : option (Capability string) :=
  if String.prefix "did:" resource
  then Some (MkTriple "access/*" resource ∅)
  else None.

End Evaluator.

(** ** Statements and sample inputs *)

Module Statements.
Import Js Utils Access.

(** An access/delegate capability on [resource] whose delegations are the
    links [links]. *)
Definition delegate_of (resource : string) (links : list string)
  : ParsedCapability DelegateNb :=
  MkCapability "access/delegate" resource
    (MkDelegateNb (Some (map (fun l => (l, MkLink l)) links))).

Definition authorize_of (resource account : string) (cans : list string)
  : ParsedCapability AuthorizationRequest :=
  MkCapability "access/authorize" resource
    (MkAuthorizationRequest account (map MkRequest cans)).

Definition confirm_of (resource account agent : string)
    (cans : list string) : ParsedCapability ConfirmRequest :=
  MkCapability "access/confirm" resource
    (MkConfirmRequest account agent (map MkRequest cans)).

(** The verdict on the requested abilities [requested] against [granted],
    for a derivation result [verdict]. *)
Definition abilities_verdict (verdict : Check)
    (requested granted : list CapabilityRequest) : Prop :=
  ("*" ∈ map can granted → verdict = Pass)
  ∧ ("*" ∉ map can granted →
     (verdict = Pass ↔ map can requested ⊆ map can granted)
     ∧ (¬ map can requested ⊆ map can granted →
        ∃ escalated : list string,
          NoDup escalated
          ∧ (∀ a, a ∈ escalated
                  ↔ a ∈ map can requested ∧ a ∉ map can granted)
          ∧ verdict
            = Fail (Failure_new
                      ("unauthorized nb.att.can "
                         +:+ join ", " escalated)))).

(** A rule guarded by [equalWith]: it passes only on equal resources, and
    on different resources it returns the failure of [equalWith] whatever
    the other fields hold. *)
Definition guarded_by_equalWith {NB}
    (derives : ParsedCapability NB → ParsedCapability NB → Check) : Prop :=
  ∀ claim proof,
    (derives claim proof = Pass → cap_with claim = cap_with proof)
    ∧ (cap_with claim ≠ cap_with proof →
       derives claim proof
       = Fail (Failure_with (cap_can claim) (cap_with claim)
                            (cap_with proof))).

(** [absorbs granted requested]: the granted ability is the universal
    wildcard, the requested ability itself, or the wildcard [ns/*] of a
    namespace [ns] that holds the requested ability. *)
Definition absorbs (granted requested : string) : bool :=
  String.eqb granted "*"
  || String.eqb granted requested
  || match String.index 0 "/" requested with
     | Some i =>
         String.eqb granted (String.substring 0 (S i) requested +:+ "*")
     | None => false
     end.

(** Stand-ins for the two libraries, to run the space functions on: the
    public key is the reversed secret, the mnemonic is the entropy read as
    text. *)
Definition sample_ed25519 : Space.Ed25519 :=
  {| Space.getPublicKey := fun key => rev key;
     Space.did_key := fun key => "did:key:" +:+ string_of_list_byte key;
     Space.encode := fun s => (Space.secret s ++ Space.verifier s)%list |}.

Definition sample_bip39 : Space.Bip39 :=
  {| Space.Wordlist := unit;
     Space.wordlist := tt;
     Space.entropyToMnemonic := fun entropy _ =>
                                  Some (string_of_list_byte entropy);
     Space.mnemonicToEntropy := fun mnemonic _ =>
                                  Some (list_byte_of_string mnemonic) |}.

(** A stand-in for the link of a delegation: issuer and audience, read as
    a link. *)
Definition sample_cid (d : Ucan.Delegation) : Link :=
  MkLink (Ucan.issuer d +:+ ">" +:+ Ucan.audience d).

(** The store after an agent asked for [*] from an account. *)
Definition sample_requested : positive * Workflow.State :=
  Workflow.authorize "did:key:agent"
    (MkAuthorizationRequest "did:mailto:example:alice" [MkRequest "*"])
    Workflow.initial.

(** A store with a shared space at [1] whose meta object is at [2]. *)
Definition sample_heap : gmap positive Store.Obj :=
  <[1%positive
    := Store.MkObj Store.SharedSpaceClass
         (<["delegation" := Store.VNull]>
            (<["id" := Store.VString "did:key:space"]>
               (<["meta" := Store.VRef 2%positive]> ∅)))]>
    (<[2%positive
       := Store.MkObj Store.PlainObject
            (<["name" := Store.VString "old"]>
               (<["type" := Store.VString "space"]> ∅))]> ∅).

Definition sample_secret : Ucan.bytes := repeat Byte.x61 32.

Definition sample_space : Space.Model :=
  Space.MkModel (Space.MkSigner sample_secret (rev sample_secret)) "test".

(** [lists_link c l]: the dictionary [c.nb.delegations] holds, under some
    key, a link whose string form is [l]. *)
Definition lists_link (c : ParsedCapability DelegateNb) (l : string) : Prop :=
  ∃ entries key link,
    delegations (cap_nb c) = Some entries
    ∧ (key, link) ∈ entries
    ∧ toString link = l.

(** An access/delegate capability on [resource] whose dictionary holds the
    link strings [links] under keys of its own ([key0], [key1], ...). *)
Definition delegate_keyed (resource : string) (links : list string)
  : ParsedCapability DelegateNb :=
  MkCapability "access/delegate" resource
    (MkDelegateNb
       (Some (imap (fun i l => ("key" +:+ pretty i, MkLink l)) links))).

(** The elements of a list in the order of their first appearance, each
    once. *)
Fixpoint first_appearances (l : list string) : list string :=
  match l with
  | [] => []
  | x :: rest => x :: filter (fun y => y ≠ x) (first_appearances rest)
  end.

End Statements.

(** ** [access-client/src/space.js]: shared spaces *)

Module SharedSpaces.
Import Ucan Store SpaceObjects.

(** [SpaceDID = Schema.did({ method: 'key' })]: [read] accepts the strings
    that start with [did:key:] and returns them. *)
Definition SpaceDID_read (source : string) : option string :=
  if String.prefix "did:key:" source then Some source else None.

(** What [fromDelegation] throws: the [TypeError] of reading [with] from a
    missing first capability, or its own
    [Error("Invalid delegation, expected capabilities[0].with to be DID, ...")]. *)
Inductive SpaceError : Type :=
| TypeError_no_capability
| Invalid_delegation (resource : string).

(** [delegation.facts[0]?.space ?? {}]: the meta object.  The object of the
    fact enters the store here, as a plain object of its own. *)
Definition fact_space (delegation : Delegation) : Obj :=
  match facts delegation with
  | Fact_space name :: _ =>
      MkObj PlainObject (<["name" := VString name]> ∅)
  | [] => MkObj PlainObject ∅
  end.

(** [fromDelegation(delegation)] *)
Definition fromDelegation (delegation : Delegation) (σ : Heap)
  : SpaceError + loc * Heap :=
  match capabilities delegation with
  | [] => inl TypeError_no_capability
  | capability :: _ =>
      match SpaceDID_read (with_ capability) with
      | None => inl (Invalid_delegation (with_ capability))
      | Some id =>
          let '(meta, σ1) := alloc (fact_space delegation) σ in
          inr (SharedSpace_new (VString id) (VDelegation delegation)
                               (VRef meta) σ1)
      end
  end.

(** [SharedSpace.did()] *)
Definition SharedSpace_did (σ : Heap) (this : loc) : Value :=
  get σ this "id".

(** [o.k = v] on the object at [l]. *)
Definition assign (l : loc) (k : string) (v : Value) (σ : Heap) : Heap :=
  alter (fun o => MkObj (class o) (<[k := v]> (props o))) l σ.

End SharedSpaces.

(** ** [upload-client/src/receipts.js] *)

Module Receipts.
Import Access.

Local Unset Elimination Schemes.

(** An [Error] object: its [name], its [message] and its [cause]. *)
Inductive JsError : Type :=
| MkError (name message : string) (cause : option JsError).

Local Set Elimination Schemes.

Definition error_name (e : JsError) : string :=
  match e with MkError name _ _ => name end.

(** A [Result]: [{ ok }] or [{ error }]. *)
Inductive Result (T : Type) : Type :=
| Ok (ok : T)
| Err (error : JsError).
Arguments Ok {T} _.
Arguments Err {T} _.

(** What the promise of [poll] settles to. *)
Inductive Settled (T : Type) : Type :=
| Resolved (value : T)
| Rejected (reason : JsError).
Arguments Resolved {T} _.
Arguments Rejected {T} _.

Section WithReceipts.
(** The receipts of @ucanto. *)
Variable Receipt : Type.

(** What a request to the receipts endpoint comes back with: a response
    that is not [ok], or an [ok] response whose body decodes to an agent
    message, of which [get] reads the receipts by task.  A rejected [fetch]
    and a body that does not decode are left out: the endpoint answers. *)
Inductive Fetched : Type :=
| Status_not_ok
| Message (receipts : gmap string Receipt).

(** An instance of [Receipt]; [fetch n] is what the endpoint answers to the
    request made after [n] earlier ones. *)
Record Client : Type := MkClient {
  receiptsEndpoint : string;
  retries : nat;
  fetch : nat → Fetched
}.

(** [RequestOptions]; [None] is an absent property. *)
Record RequestOptions : Type := MkRequestOptions {
  opt_receiptsEndpoint : option string;
  opt_retries : option nat;
  opt_fetch : option (nat → Fetched)
}.

(** [constructor(options = {})]; the three defaults are [receiptsEndpoint]
    of service.js, [REQUEST_RETRIES] of constants.js and the global
    [fetch]. *)
Definition Client_new (default_endpoint : string) (REQUEST_RETRIES : nat)
    (global_fetch : nat → Fetched) (options : option RequestOptions)
  : Client :=
  let options := default (MkRequestOptions None None None) options in
  {| receiptsEndpoint := default default_endpoint (opt_receiptsEndpoint options);
     retries := default REQUEST_RETRIES (opt_retries options);
     fetch := default global_fetch (opt_fetch options) |}.

(** [get(taskCid)], as the request number [n]; returns the result and the
    number of requests made so far. *)
Definition get (this : Client) (taskCid : Link) (n : nat)
  : Result Receipt * nat :=
  match fetch this n with
  | Status_not_ok =>
      (Err (MkError "Error"
              ("no receipt available for requested task "
                 +:+ toString taskCid) None),
       S n)
  | Message receipts =>
      match receipts !! toString taskCid with
      | None => (Err (MkError "ReceiptNotFound" "" None), S n)
      | Some receipt => (Ok receipt, S n)
      end
  end.

(** The response to request [n] is a message without a receipt for the
    task. *)
Definition misses (this : Client) (taskCid : Link) (n : nat) : Prop :=
  ∃ receipts,
    fetch this n = Message receipts ∧ receipts !! toString taskCid = None.

(** The loop of [retry(attempt, { retries })] around the attempt of
    [poll]: a thrown [Error] is retried while retries are left and is the
    rejection when none is, a thrown [AbortError] rejects at once with the
    error it wraps. *)
Fixpoint poll_attempts (this : Client) (taskCid : Link) (left n : nat)
  : Settled Receipt * nat :=
  match get this taskCid n with
  | (Ok receipt, n') => (Resolved receipt, n')
  | (Err error, n') =>
      if String.eqb (error_name error) "ReceiptNotFound" then
        match left with
        | O =>
            (Rejected
               (MkError "Error" "blob/accept receipt not yet available" None),
             n')
        | S left' => poll_attempts this taskCid left' n'
        end
      else
        (Rejected
           (MkError "Error" "failed to fetch blob/accept receipt"
                    (Some error)),
         n')
  end.

(** [poll(taskCid)] *)
Definition poll (this : Client) (taskCid : Link) (n : nat)
  : Settled Receipt * nat :=
  poll_attempts this taskCid (retries this) n.

End WithReceipts.

Arguments Status_not_ok {Receipt}.
Arguments Message {Receipt} _.
Arguments MkClient {Receipt} _ _ _.
Arguments receiptsEndpoint {Receipt} _.
Arguments retries {Receipt} _.
Arguments fetch {Receipt} _ _.
Arguments get {Receipt} _ _ _.
Arguments misses {Receipt} _ _ _.
Arguments poll_attempts {Receipt} _ _ _ _.
Arguments poll {Receipt} _ _ _.
Arguments Client_new {Receipt} _ _ _ _.
Arguments MkRequestOptions {Receipt} _ _ _.

(** A client on an endpoint that answers twice without the receipt of task
    [bafytask], then with it, then with a response that is not [ok]. *)
Definition sample_client (retries : nat) : Client string :=
  MkClient "https://up.web3.storage/receipt/" retries
    (fun n =>
       match n with
       | 0 | 1 => Message (<["bafyother" := "other receipt"]> ∅)
       | 2 => Message (<["bafytask" := "task receipt"]> ∅)
       | _ => Status_not_ok
       end).

End Receipts.

(** ** The storefront service: [filecoin/add] *)

Module Storefront.
Import Utils Access Ucan.

(** The [nb] of the capability: [{ piece, content }]. *)
Record FilecoinAddNb : Type := MkFilecoinAddNb {
  piece : Link;
  content : Link
}.

(** What is handed to [addQueue.add] and to [pieceStore.put]. *)
Record PieceRecord : Type := MkPieceRecord {
  rec_piece : Link;
  rec_content : Link;
  insertedAt : Z
}.

(** The result of a queue or store operation: done, or
    [{ error: { message } }]. *)
Inductive OpResult : Type :=
| Done
| Failed (message : string).

(** The invocation [filecoinAdd.invoke({ issuer, audience, with, nb })]. *)
Record Invocation : Type := MkInvocation {
  inv_issuer : DID;
  inv_audience : DID;
  inv_capability : ParsedCapability FilecoinAddNb
}.

(** The errors of errors.js, by the message they are built with. *)
Inductive ServiceError : Type :=
| QueueOperationFailed (message : string)
| StoreOperationFailed (message : string).

(** What the handler returns: [{ error }], or [{ ok: { status, piece } }]
    with, when an effect was joined, the link of the effect. *)
Inductive ClaimResult : Type :=
| Claim_error (error : ServiceError)
| Claim_ok (status : string) (piece : Link) (join : option Link).

Section Service.
(** The states of the queue and of the piece store. *)
Variables Queue Store : Type.

(** [StorefrontServiceContext]: the service principal [id], and the two
    operations the handler calls, as functions of the state they act on. *)
Record Context : Type := MkContext {
  id : Principal;
  addQueue_add : PieceRecord → Queue → OpResult * Queue;
  pieceStore_put : PieceRecord → Store → OpResult * Store
}.

(** The ability of [FilecoinCapabilities.filecoinAdd] and the link of a
    delegated invocation. *)
Variable filecoinAdd_can : string.
Variable link : Invocation → Link.

(** The invocation [queueAdd] creates for the receipt: issued by the
    service to itself, on its own DID. *)
Definition effect_of (context : Context) (piece content : Link)
  : Invocation :=
  {| inv_issuer := did (id context);
     inv_audience := did (id context);
     inv_capability :=
       MkCapability filecoinAdd_can (did (id context))
                    (MkFilecoinAddNb piece content) |}.

(** [queueAdd(piece, content, context)]; [now] is [Date.now()]. *)
Definition queueAdd (piece content : Link) (context : Context) (now : Z)
    (st : Queue * Store) : ClaimResult * (Queue * Store) :=
  let '(queued, queue') :=
    addQueue_add context (MkPieceRecord piece content now) st.1 in
  match queued with
  | Failed message =>
      (Claim_error (QueueOperationFailed message), (queue', st.2))
  | Done =>
      (Claim_ok "queued" piece (Some (link (effect_of context piece content))),
       (queue', st.2))
  end.

(** [queueHandler(piece, content, context)] *)
Definition queueHandler (piece content : Link) (context : Context) (now : Z)
    (st : Queue * Store) : ClaimResult * (Queue * Store) :=
  let '(put, store') :=
    pieceStore_put context (MkPieceRecord piece content now) st.2 in
  match put with
  | Failed message =>
      (Claim_error (StoreOperationFailed message), (st.1, store'))
  | Done => (Claim_ok "accepted" piece None, (st.1, store'))
  end.

(** [claim({ capability }, context)] *)
Definition claim (capability : ParsedCapability FilecoinAddNb)
    (context : Context) (now : Z) (st : Queue * Store)
  : ClaimResult * (Queue * Store) :=
  let piece := piece (cap_nb capability) in
  let content := content (cap_nb capability) in
  if String.eqb (did (id context)) (cap_with capability)
  then queueHandler piece content context now st
  else queueAdd piece content context now st.

End Service.

Arguments MkContext {Queue Store} _ _ _.
Arguments id {Queue Store} _.
Arguments addQueue_add {Queue Store} _ _ _.
Arguments pieceStore_put {Queue Store} _ _ _.
Arguments effect_of {Queue Store} _ _ _ _.
Arguments queueAdd {Queue Store} _ _ _ _ _ _ _.
Arguments queueHandler {Queue Store} _ _ _ _ _.
Arguments claim {Queue Store} _ _ _ _ _ _.

(** A service whose queue and store are lists that take every record. *)
Definition sample_context : Context (list PieceRecord) (list PieceRecord) :=
  MkContext (MkPrincipal "did:web:web3.storage")
            (fun r q => (Done, (q ++ [r])%list))
            (fun r s => (Done, (s ++ [r])%list)).

End Storefront.

(** ** [upload-api/src/upload/add.js] *)

Module UploadAdd.
Import Utils Access Ucan.

(** The [nb] of upload/add: [{ root, shards }], [shards] optional. *)
Record UploadAddNb : Type := MkUploadAddNb {
  root : Link;
  shards : option (list Link)
}.

(** The invocation, as far as the handler reads it. *)
Record UploadInvocation : Type := MkUploadInvocation {
  invocation_issuer : Principal;
  invocation_cid : Link
}.

(** What is handed to [uploadTable.insert]. *)
Record UploadRecord : Type := MkUploadRecord {
  upload_space : DID;
  upload_root : Link;
  upload_shards : option (list Link);
  upload_issuer : DID;
  upload_invocation : Link
}.

(** What a call of the function handed to [pRetry] comes to: it resolves;
    it throws an [Error] that [pRetry] retries; or it throws what [pRetry]
    gives up on at once (a value that is no [Error], an [AbortError], or a
    [TypeError] that is not a network error). *)
Inductive Attempt : Type :=
| Resolves
| Throws_error
| Throws_fatal.

(** [pRetry(attempt, { retries })]: whether it resolved, and the calls
    made.  [attempt n] is the outcome of the call number [n]; a retried
    error is retried while retries are left. *)
Fixpoint pRetry (attempt : nat → Attempt) (retries : nat) (n : nat)
  : bool * nat :=
  match attempt n with
  | Resolves => (true, S n)
  | Throws_fatal => (false, S n)
  | Throws_error =>
      match retries with
      | O => (false, S n)
      | S retries' => pRetry attempt retries' (S n)
      end
  end.

Section Service.
(** The state of the upload table, what [insert] resolves to, and the
    error of a failed [hasProvider]. *)
Variables Table Inserted ProviderError : Type.

(** The result of [hasProvider]: [{ error }] or [{ ok: boolean }]. *)
Inductive ProviderResult : Type :=
| Provider_error (error : ProviderError)
| Provider_ok (ok : bool).

(** [UploadServiceContext], as far as the handler uses it.
    [hasProvider service consumer] is [hasProvider] of consumer/has.js on
    [{ with: service, nb: { consumer } }]; [dudewhere_put i data car n] is
    what the call number [n] of [dudewhereBucket.put(data, car)] for the
    shard at position [i] comes to. *)
Record Context : Type := MkContext {
  signer : Principal;
  hasProvider : DID → DID → ProviderResult;
  uploadTable_insert : UploadRecord → Table → Inserted * Table;
  dudewhere_put : nat → string → string → nat → Attempt
}.

(** What the handler settles to: a returned [{ error }] of its own, the
    returned result of [hasProvider], a returned [{ ok }], or a rejection
    because a mapping could not be written. *)
Inductive Outcome : Type :=
| Return_error (name message : string)
| Return_provider_error (error : ProviderError)
| Return_ok (res : Inserted)
| Rejects.

(** One mapping written by [writeDataCidToCarCidsMapping]: the data CID,
    the car CID, whether the write came to succeed and the calls of [put]
    it took. *)
Record Written : Type := MkWritten {
  dataCid : string;
  carCid : string;
  succeeded : bool;
  calls : nat
}.

(** [writeDataCidToCarCidsMapping(dudewhereStore, root, shards)]: one
    retried [put] for every shard, none when there are no shards. *)
Definition writeDataCidToCarCidsMapping (context : Context) (root : Link)
    (shards : option (list Link)) : list Written :=
  let dataCid := toString root in
  let carCids := map toString (default [] shards) in
  imap (fun i carCid =>
          let '(ok, n) := pRetry (dudewhere_put context i dataCid carCid) 3 0 in
          MkWritten dataCid carCid ok n)
       carCids.

(** The handler of [uploadAddProvider(context)]: its outcome, the upload
    table afterwards and the mappings it wrote. *)
Definition uploadAdd (context : Context)
    (capability : ParsedCapability UploadAddNb)
    (invocation : UploadInvocation) (table : Table)
  : Outcome * Table * list Written :=
  let serviceDID := did (signer context) in
  let root := root (cap_nb capability) in
  let shards := shards (cap_nb capability) in
  let space := cap_with capability in
  let issuer := did (invocation_issuer invocation) in
  match hasProvider context serviceDID space with
  | Provider_error error => (Return_provider_error error, table, [])
  | Provider_ok false =>
      (Return_error "NoStorageProvider"
                    (space +:+ " has no storage provider"),
       table, [])
  | Provider_ok true =>
      let '(res, table') :=
        uploadTable_insert context
          (MkUploadRecord space root shards issuer
                          (invocation_cid invocation))
          table in
      let written := writeDataCidToCarCidsMapping context root shards in
      (if forallb succeeded written then Return_ok res else Rejects,
       table', written)
  end.

End Service.

Arguments Provider_error {ProviderError} _.
Arguments Provider_ok {ProviderError} _.
Arguments MkContext {Table Inserted ProviderError} _ _ _ _.
Arguments signer {Table Inserted ProviderError} _.
Arguments hasProvider {Table Inserted ProviderError} _ _ _.
Arguments uploadTable_insert {Table Inserted ProviderError} _ _ _.
Arguments dudewhere_put {Table Inserted ProviderError} _ _ _ _ _.
Arguments Return_error {Inserted ProviderError} _ _.
Arguments Return_provider_error {Inserted ProviderError} _.
Arguments Return_ok {Inserted ProviderError} _.
Arguments Rejects {Inserted ProviderError}.
Arguments writeDataCidToCarCidsMapping {Table Inserted ProviderError} _ _ _.
Arguments uploadAdd {Table Inserted ProviderError} _ _ _ _.

(** A service that provides only for [did:key:space], whose table is the
    list of the records inserted, and whose bucket fails the first two
    calls of every [put] with an error that is retried. *)
Definition sample_context
  : Context (list UploadRecord) UploadRecord string :=
  MkContext (MkPrincipal "did:web:web3.storage")
            (fun service consumer =>
               Provider_ok (String.eqb consumer "did:key:space"))
            (fun r table => (r, (table ++ [r])%list))
            (fun i data car n =>
               if Nat.leb 2 n then Resolves else Throws_error).

(** The same service with a bucket whose [put] always fails. *)
Definition sample_context_failing
  : Context (list UploadRecord) UploadRecord string :=
  MkContext (signer sample_context) (hasProvider sample_context)
            (uploadTable_insert sample_context)
            (fun i data car n => Throws_error).

Definition sample_upload (space : string)
  : ParsedCapability UploadAddNb :=
  MkCapability "upload/add" space
    (MkUploadAddNb (MkLink "bafyroot")
                   (Some [MkLink "bagshard1"; MkLink "bagshard2"])).

Definition sample_invocation : UploadInvocation :=
  MkUploadInvocation (MkPrincipal "did:key:agent") (MkLink "bafyinvocation").

End UploadAdd.

(** ** [test/helpers/mocks.js] *)

Module Mocks.

(** What a call of a service method comes to: a value, or a thrown
    [Server.Failure] with its message. *)
Inductive Outcome (R : Type) : Type :=
| Returns (value : R)
| Throws (message : string).
Arguments Returns {R} _.
Arguments Throws {R} _.

(** The two properties [withCallCount] keeps on the counted function. *)
Record Counted : Type := MkCounted {
  called : bool;
  callCount : Z
}.

(** [n++] on a number that counts up from [0]: at [2^53] the next integer
    is not a double and the sum rounds back to [2^53]. *)
Definition increment (n : Z) : Z :=
  if Z.ltb n (2 ^ 53) then (n + 1)%Z else n.

Section Handlers.
Variables Args R : Type.

Definition Handler : Type := Args → Outcome R.

(** [notImplemented] *)
Definition notImplemented : Handler :=
  fun _ => Throws "not implemented".

(** [withCallCount(fn)]: the properties of the new counted function. *)
Definition withCallCount : Counted := MkCounted false 0.

(** A call [countedFn(...args)] of the function counting for [fn]. *)
Definition countedFn (fn : Handler) (args : Args) (this : Counted)
  : Outcome R * Counted :=
  let this := MkCounted true (callCount this) in
  let this := MkCounted (called this) (increment (callCount this)) in
  (fn args, this).

(** Calls one after the other, with their outcomes in order. *)
Fixpoint countedFn_all (fn : Handler) (calls : list Args) (this : Counted)
  : list (Outcome R) * Counted :=
  match calls with
  | [] => ([], this)
  | args :: rest =>
      let '(outcome, this) := countedFn fn args this in
      let '(outcomes, this) := countedFn_all fn rest this in
      (outcome :: outcomes, this)
  end.

(** A method of a mocked service, by namespace and name. *)
Definition Method : Type := string * string.

(** A counted function: the function it calls and its two properties. *)
Record CountedFn : Type := MkCountedFn {
  fn : Handler;
  counted : Counted
}.

(** [mockService(impl)]: for every method of the table [methods],
    [withCallCount(impl.ns?.name ?? notImplemented)]; [impl] holds the
    methods given. *)
Definition mockService (methods : list Method) (impl : gmap Method Handler)
  : gmap Method CountedFn :=
  list_to_map
    (map (fun m =>
            (m, MkCountedFn (default notImplemented (impl !! m))
                            withCallCount))
         methods).

(** A call [service.ns.name(...args)]; [None] when the service has no such
    method. *)
Definition invoke (m : Method) (args : Args)
    (service : gmap Method CountedFn)
  : option (Outcome R * gmap Method CountedFn) :=
  match service !! m with
  | None => None
  | Some f =>
      let '(outcome, counted') := countedFn (fn f) args (counted f) in
      Some (outcome, <[m := MkCountedFn (fn f) counted']> service)
  end.
End Handlers.

Arguments notImplemented {Args R} _.
Arguments countedFn {Args R} _ _ _.
Arguments countedFn_all {Args R} _ _ _.
Arguments MkCountedFn {Args R} _ _.
Arguments fn {Args R} _.
Arguments counted {Args R} _.
Arguments mockService {Args R} _ _.
Arguments invoke {Args R} _ _ _.

(** The methods [mockService] of w3up-client exposes. *)
Definition w3up_client_methods : list Method :=
  [("store", "add"); ("store", "get"); ("store", "list"); ("store", "remove");
   ("upload", "add"); ("upload", "get"); ("upload", "list");
   ("upload", "remove");
   ("space", "info");
   ("access", "claim"); ("access", "authorize"); ("access", "delegate");
   ("provider", "add");
   ("ucan", "revoke")].

(** The methods [mockService] of upload-client exposes. *)
Definition upload_client_methods : list Method :=
  [("ucan", "conclude");
   ("blob", "add"); ("blob", "list"); ("blob", "remove");
   ("index", "add");
   ("store", "add"); ("store", "get"); ("store", "list"); ("store", "remove");
   ("upload", "add"); ("upload", "get"); ("upload", "list");
   ("upload", "remove");
   ("usage", "report");
   ("filecoin", "offer"); ("filecoin", "submit"); ("filecoin", "accept");
   ("filecoin", "info")].

End Mocks.

(** * Properties *)

(** ** Sets and set difference *)

Module JsFacts.
Import Js.

Section SetFacts.
Context {A : Type} `{EqDecision A}.
Implicit Types (s : JsSet A) (xs : list A) (e x : A).

Lemma set_has_true s e : set_has s e = true ↔ e ∈ s.
Proof. unfold set_has. apply bool_decide_eq_true. Qed.

Lemma set_has_false s e : set_has s e = false ↔ e ∉ s.
Proof. unfold set_has. apply bool_decide_eq_false. Qed.

Lemma elem_of_set_add s e x : x ∈ set_add s e ↔ x ∈ s ∨ x = e.
Proof.
  unfold set_add. destruct (set_has s e) eqn:Hhas.
  - apply set_has_true in Hhas. split; [by left |].
    intros [Hx | ->]; done.
  - rewrite elem_of_app, list_elem_of_singleton. done.
Qed.

Lemma NoDup_set_add s e : NoDup s → NoDup (set_add s e).
Proof.
  intros Hnd. unfold set_add. destruct (set_has s e) eqn:Hhas; [done |].
  apply set_has_false in Hhas. apply NoDup_app. split; [done |].
  split; [| apply NoDup_singleton].
  intros x Hx Hin. apply list_elem_of_singleton in Hin. by subst.
Qed.

Lemma elem_of_foldl_set_add xs s x :
  x ∈ foldl set_add s xs ↔ x ∈ s ∨ x ∈ xs.
Proof.
  revert s. induction xs as [| y ys IH]; intros s; simpl.
  - rewrite elem_of_nil. tauto.
  - rewrite IH, elem_of_set_add, elem_of_cons. tauto.
Qed.

Lemma elem_of_set_from xs x : x ∈ set_from xs ↔ x ∈ xs.
Proof.
  unfold set_from, set_empty. rewrite elem_of_foldl_set_add, elem_of_nil.
  tauto.
Qed.

Lemma NoDup_set_from xs : NoDup (set_from xs).
Proof.
  unfold set_from.
  assert (Hgen : ∀ s, NoDup s → NoDup (foldl set_add s xs)).
  { induction xs as [| y ys IH]; intros s Hs; simpl; [done |].
    apply IH. by apply NoDup_set_add. }
  apply Hgen. apply NoDup_nil_2.
Qed.

Lemma set_size_pos s : Nat.ltb 0 (set_size s) = false ↔ s = [].
Proof.
  unfold set_size, Nat.ltb. destruct s; simpl; split; intros; congruence.
Qed.
End SetFacts.

End JsFacts.

(** ** Derivation rules of the access capabilities *)

Module AccessFacts.
Import Js Utils Access JsFacts Statements.

Lemma elem_of_setDifference_acc (minuend : list string)
    (subtrahend acc : JsSet string) (x : string) :
  x ∈ foldl (fun difference e =>
               if negb (set_has subtrahend e) then set_add difference e
               else difference) acc minuend
  ↔ x ∈ acc ∨ (x ∈ minuend ∧ x ∉ subtrahend).
Proof.
  revert acc. induction minuend as [| y ys IH]; intros acc; simpl.
  - rewrite elem_of_nil. tauto.
  - rewrite IH, elem_of_cons. destruct (set_has subtrahend y) eqn:Hhas; simpl.
    + apply set_has_true in Hhas. split; [tauto |].
      intros [? | [[-> | ?] ?]]; tauto.
    + apply set_has_false in Hhas. rewrite elem_of_set_add.
      split; [| tauto].
      intros [[? | ->] | ?]; tauto.
Qed.

Lemma elem_of_setDifference minuend subtrahend x :
  x ∈ setDifference minuend subtrahend ↔ x ∈ minuend ∧ x ∉ subtrahend.
Proof.
  unfold setDifference, set_empty.
  rewrite elem_of_setDifference_acc, elem_of_nil. tauto.
Qed.

Lemma NoDup_setDifference minuend subtrahend :
  NoDup (setDifference minuend subtrahend).
Proof.
  unfold setDifference, set_empty.
  generalize (NoDup_nil_2 (A := string)). generalize (@nil string).
  induction minuend as [| y ys IH]; intros acc Hacc; simpl; [done |].
  apply IH. destruct (negb (set_has subtrahend y)); [| done].
  by apply NoDup_set_add.
Qed.

(** The difference is empty exactly when the minuend is included in the
    subtrahend. *)
Lemma setDifference_nil minuend subtrahend :
  setDifference minuend subtrahend = [] ↔ minuend ⊆ subtrahend.
Proof.
  split.
  - intros Hnil x Hx. destruct (decide (x ∈ subtrahend)) as [| Hout]; [done |].
    assert (Hin : x ∈ setDifference minuend subtrahend)
      by (apply elem_of_setDifference; done).
    rewrite Hnil in Hin. by apply elem_of_nil in Hin.
  - intros Hsub. destruct (setDifference minuend subtrahend) as [| z zs] eqn:E;
      [done |].
    assert (Hin : z ∈ setDifference minuend subtrahend)
      by (rewrite E; apply list_elem_of_here).
    apply elem_of_setDifference in Hin as [Hz Hout]. by apply Hsub in Hz.
Qed.

(** What a set difference against [new Set(allowed)] holds. *)
Lemma setDifference_set_from requested allowed :
  let delta := setDifference requested (set_from allowed) in
  NoDup delta
  ∧ (∀ x, x ∈ delta ↔ x ∈ requested ∧ x ∉ allowed)
  ∧ (delta = [] ↔ requested ⊆ allowed).
Proof.
  simpl. split; [apply NoDup_setDifference |]. split.
  - intros x. rewrite elem_of_setDifference, elem_of_set_from. done.
  - rewrite setDifference_nil. split; intros Hsub x Hx.
    + apply elem_of_set_from. by apply Hsub.
    + apply Hsub in Hx. by apply elem_of_set_from in Hx.
Qed.

Lemma equalWith_same {NB} (child parent : ParsedCapability NB) :
  cap_with child = cap_with parent → equalWith child parent = Pass.
Proof. intros Heq. unfold equalWith. by rewrite Heq, String.eqb_refl. Qed.

Lemma equalWith_differ {NB} (child parent : ParsedCapability NB) :
  cap_with child ≠ cap_with parent →
  equalWith child parent
  = Fail (Failure_with (cap_can child) (cap_with child) (cap_with parent)).
Proof.
  intros Hne. unfold equalWith.
  destruct (String.eqb_spec (cap_with child) (cap_with parent)); done.
Qed.

Lemma equal_same v constraint : equal v v constraint = Pass.
Proof. unfold equal. by rewrite String.eqb_refl. Qed.

(** [subsetCapabilities] in closed form. *)
Lemma subsetCapabilities_eq claim proof :
  subsetCapabilities claim proof
  = if bool_decide ("*" ∈ map can proof) then Pass
    else match setDifference (map can claim) (set_from (map can proof)) with
         | [] => Pass
         | escalated =>
             Fail (Failure_new
                     ("unauthorized nb.att.can " +:+ join ", " escalated))
         end.
Proof.
  unfold subsetCapabilities.
  destruct (set_has (set_from (map can proof)) "*") eqn:Hall.
  - apply set_has_true in Hall. rewrite elem_of_set_from in Hall.
    by rewrite bool_decide_eq_true_2.
  - apply set_has_false in Hall. rewrite elem_of_set_from in Hall.
    rewrite bool_decide_eq_false_2 by done.
    by destruct (setDifference (map can claim) (set_from (map can proof))).
Qed.

(** The verdict of [subsetCapabilities], phrased on the [can] strings. *)
Lemma subsetCapabilities_verdict claim proof :
  ("*" ∈ map can proof → subsetCapabilities claim proof = Pass)
  ∧ ("*" ∉ map can proof →
     (subsetCapabilities claim proof = Pass
      ↔ map can claim ⊆ map can proof)
     ∧ (¬ map can claim ⊆ map can proof →
        ∃ escalated : list string,
          NoDup escalated
          ∧ (∀ a, a ∈ escalated
                  ↔ a ∈ map can claim ∧ a ∉ map can proof)
          ∧ subsetCapabilities claim proof
            = Fail (Failure_new
                      ("unauthorized nb.att.can "
                         +:+ join ", " escalated)))).
Proof.
  rewrite subsetCapabilities_eq.
  destruct (setDifference_set_from (map can claim) (map can proof))
    as (Hnd & Hin & Hnil).
  split.
  - intros Hall. by rewrite bool_decide_eq_true_2.
  - intros Hnone. rewrite bool_decide_eq_false_2 by done. split.
    + rewrite <- Hnil.
      destruct (setDifference (map can claim) (set_from (map can proof)));
        split; intros; congruence.
    + intros Hesc.
      exists (setDifference (map can claim) (set_from (map can proof))).
      split; [done |]. split; [done |].
      destruct (setDifference (map can claim) (set_from (map can proof)))
        eqn:E; [| done].
      exfalso. apply Hesc, Hnil. done.
Qed.

(** The subset law of the specification on its own example: a claim for
    [{a, b}] derives from a proof for [{a, b, c}], a claim for
    [{a, b, d}] does not and the failure names [d]. *)
Example delegate_subset_law_ok :
  delegate_derives (delegate_of "did:key:space" ["a"; "b"])
                   (delegate_of "did:key:space" ["a"; "b"; "c"]) = Pass.
Proof. vm_compute. reflexivity. Qed.

Example delegate_subset_law_escalated :
  delegate_derives (delegate_of "did:key:space" ["a"; "b"; "d"])
                   (delegate_of "did:key:space" ["a"; "b"; "c"])
  = Fail (Failure_new "unauthorized nb.delegations d").
Proof. vm_compute. reflexivity. Qed.

Example delegate_escalated_twice :
  delegate_derives (delegate_of "did:key:space" ["e"; "a"; "d"; "e"])
                   (delegate_of "did:key:space" ["a"; "b"; "c"])
  = Fail (Failure_new "unauthorized nb.delegations e, d").
Proof. vm_compute. reflexivity. Qed.

(** The verdict of [delegate.derives] on equal resources, on the strings
    that [delegatedCids] yields. *)
Lemma delegate_derives_cids (claim proof : ParsedCapability DelegateNb) :
  cap_with claim = cap_with proof →
  (delegate_derives claim proof = Pass
   ↔ delegatedCids claim ⊆ delegatedCids proof)
  ∧ (¬ delegatedCids claim ⊆ delegatedCids proof →
     ∃ missing : list string,
       NoDup missing
       ∧ (∀ l, l ∈ missing
               ↔ l ∈ delegatedCids claim ∧ l ∉ delegatedCids proof)
       ∧ delegate_derives claim proof
         = Fail (Failure_new
                   ("unauthorized nb.delegations "
                      +:+ join ", " missing))).
Proof.
  intros Hwith. unfold delegate_derives, subsetsNbDelegations.
  rewrite (equalWith_same _ _ Hwith). simpl.
  destruct (setDifference_set_from (delegatedCids claim)
                                   (delegatedCids proof))
    as (Hnd & Hin & Hnil).
  unfold set_spread.
  destruct (setDifference (delegatedCids claim)
                          (set_from (delegatedCids proof)))
    as [| m ms] eqn:E.
  - simpl. split.
    + split; [intros _; by apply Hnil | done].
    + intros Hesc. exfalso. by apply Hesc, Hnil.
  - unfold set_size, Nat.ltb. simpl Nat.leb. cbv iota. split.
    + split; [done |]. intros Hsub. apply Hnil in Hsub. done.
    + intros _. exists (m :: ms). done.
Qed.

(** [delegatedCids] yields exactly the string forms of the links that the
    dictionary [nb.delegations] holds. *)
Lemma delegatedCids_lists (c : ParsedCapability DelegateNb) (l : string) :
  l ∈ delegatedCids c ↔ lists_link c l.
Proof.
  unfold delegatedCids, lists_link. rewrite list_elem_of_In, in_map_iff.
  split.
  - intros ([key link] & Hstr & Hin).
    destruct (delegations (cap_nb c)) as [entries |]; [| done].
    exists entries, key, link. by rewrite list_elem_of_In.
  - intros (entries & key & link & -> & Hin & Hstr).
    exists (key, link). by rewrite <- list_elem_of_In.
Qed.

(** C1: for access/delegate capabilities with equal [with], [derives]
    succeeds iff every string that is the string form of a link held by
    the dictionary [claim.nb.delegations] is also the string form of a link
    held by [proof.nb.delegations]; otherwise it returns the [Failure]
    whose message lists, once each, exactly the link strings of the claim's
    dictionary that the proof's dictionary lacks. *)
Theorem delegate_derives_subset (claim proof : ParsedCapability DelegateNb) :
  cap_with claim = cap_with proof →
  (delegate_derives claim proof = Pass
   ↔ ∀ l, lists_link claim l → lists_link proof l)
  ∧ (¬ (∀ l, lists_link claim l → lists_link proof l) →
     ∃ missing : list string,
       NoDup missing
       ∧ (∀ l, l ∈ missing ↔ lists_link claim l ∧ ¬ lists_link proof l)
       ∧ delegate_derives claim proof
         = Fail (Failure_new
                   ("unauthorized nb.delegations "
                      +:+ join ", " missing))).
Proof.
  intros Hwith. destruct (delegate_derives_cids claim proof Hwith)
    as [Hpass Hfail].
  assert (Hsub : delegatedCids claim ⊆ delegatedCids proof
                 ↔ ∀ l, lists_link claim l → lists_link proof l).
  { split.
    - intros Hincl l Hl. by apply delegatedCids_lists, Hincl,
        delegatedCids_lists.
    - intros Hall l Hl. by apply delegatedCids_lists, Hall,
        delegatedCids_lists. }
  split; [by rewrite Hpass |].
  intros Hesc. destruct Hfail as (missing & Hnd & Hin & Hresult).
  { intros Hincl. by apply Hesc, Hsub. }
  exists missing. split; [done |]. split; [| done].
  intros l. rewrite Hin, !delegatedCids_lists. done.
Qed.

Lemma delegate_derives_subset_witness :
  ∃ missing : list string,
    (∀ l, l ∈ missing
          ↔ lists_link (delegate_keyed "did:key:space" ["a"; "b"; "d"]) l
            ∧ ¬ lists_link (delegate_keyed "did:key:space" ["c"; "b"; "a"]) l)
    ∧ delegate_derives (delegate_keyed "did:key:space" ["a"; "b"; "d"])
                       (delegate_keyed "did:key:space" ["c"; "b"; "a"])
      = Fail (Failure_new
                ("unauthorized nb.delegations " +:+ join ", " missing)).
Proof.
  destruct (proj2 (delegate_derives_subset
                     (delegate_keyed "did:key:space" ["a"; "b"; "d"])
                     (delegate_keyed "did:key:space" ["c"; "b"; "a"])
                     eq_refl))
    as (missing & _ & Hin & Hresult).
  - intros Hall.
    destruct (Hall "d") as (entries & key & link & Hsome & Hentry & Hstr).
    + exists [("key0", MkLink "a"); ("key1", MkLink "b");
              ("key2", MkLink "d")], "key2", (MkLink "d").
      split; [reflexivity |]. split; [| reflexivity].
      apply list_elem_of_In. simpl. tauto.
    + injection Hsome as <-. apply list_elem_of_In in Hentry. simpl in Hentry.
      destruct Hentry as [H | [H | [H | []]]]; injection H as _ <-;
        discriminate Hstr.
  - exists missing. split; [exact Hin | exact Hresult].
Defined.

Example delegate_keyed_escalated :
  delegate_derives (delegate_keyed "did:key:space" ["a"; "b"; "d"])
                   (delegate_keyed "did:key:space" ["c"; "b"; "a"])
  = Fail (Failure_new "unauthorized nb.delegations d").
Proof. vm_compute. reflexivity. Qed.

(** Once [with] and the compared fields agree, the rules for
    access/authorize and access/confirm return what [subsetCapabilities]
    returns. *)
Lemma authorize_derives_agree
    (claim proof : ParsedCapability AuthorizationRequest) :
  cap_with claim = cap_with proof →
  iss (cap_nb claim) = iss (cap_nb proof) →
  authorize_derives claim proof
  = subsetCapabilities (att (cap_nb claim)) (att (cap_nb proof)).
Proof.
  intros Hwith Hiss. unfold authorize_derives.
  rewrite (equalWith_same _ _ Hwith), Hiss, equal_same. simpl.
  by destruct (subsetCapabilities _ _).
Qed.

Lemma confirm_derives_agree (claim proof : ParsedCapability ConfirmRequest) :
  cap_with claim = cap_with proof →
  confirm_iss (cap_nb claim) = confirm_iss (cap_nb proof) →
  confirm_aud (cap_nb claim) = confirm_aud (cap_nb proof) →
  confirm_derives claim proof
  = subsetCapabilities (confirm_att (cap_nb claim))
                       (confirm_att (cap_nb proof)).
Proof.
  intros Hwith Hiss Haud. unfold confirm_derives.
  rewrite (equalWith_same _ _ Hwith), Hiss, Haud, !equal_same. simpl.
  by destruct (subsetCapabilities _ _).
Qed.

(** C2: for access/authorize pairs that agree on [with] and [nb.iss], and
    for access/confirm pairs that agree on [with], [nb.iss] and [nb.aud],
    the derivation passes whenever [proof.nb.att] has an entry with
    [can = "*"]; otherwise it passes iff every [can] of [claim.nb.att]
    occurs among the [can]s of [proof.nb.att], and if not it returns the
    [Failure] whose message lists, once each, exactly the [can]s of the
    claim that the proof lacks. *)
Theorem requested_abilities_check :
  (∀ claim proof : ParsedCapability AuthorizationRequest,
     cap_with claim = cap_with proof →
     iss (cap_nb claim) = iss (cap_nb proof) →
     abilities_verdict (authorize_derives claim proof)
                       (att (cap_nb claim)) (att (cap_nb proof)))
  ∧ (∀ claim proof : ParsedCapability ConfirmRequest,
       cap_with claim = cap_with proof →
       confirm_iss (cap_nb claim) = confirm_iss (cap_nb proof) →
       confirm_aud (cap_nb claim) = confirm_aud (cap_nb proof) →
       abilities_verdict (confirm_derives claim proof)
                         (confirm_att (cap_nb claim))
                         (confirm_att (cap_nb proof))).
Proof.
  split.
  - intros claim proof Hwith Hiss. unfold abilities_verdict.
    rewrite (authorize_derives_agree _ _ Hwith Hiss).
    apply subsetCapabilities_verdict.
  - intros claim proof Hwith Hiss Haud. unfold abilities_verdict.
    rewrite (confirm_derives_agree _ _ Hwith Hiss Haud).
    apply subsetCapabilities_verdict.
Qed.

Lemma requested_abilities_check_witness :
  abilities_verdict
    (authorize_derives
       (authorize_of "did:key:agent" "did:mailto:web.mail:alice"
                     ["store/add"; "store/remove"])
       (authorize_of "did:key:agent" "did:mailto:web.mail:alice"
                     ["store/add"; "upload/add"]))
    (map MkRequest ["store/add"; "store/remove"])
    (map MkRequest ["store/add"; "upload/add"])
  ∧ abilities_verdict
      (confirm_derives
         (confirm_of "did:web:service" "did:mailto:web.mail:alice"
                     "did:key:agent" ["store/add"])
         (confirm_of "did:web:service" "did:mailto:web.mail:alice"
                     "did:key:agent" ["*"]))
      (map MkRequest ["store/add"]) (map MkRequest ["*"]).
Proof.
  split.
  - apply (proj1 requested_abilities_check
             (authorize_of "did:key:agent" "did:mailto:web.mail:alice"
                           ["store/add"; "store/remove"])
             (authorize_of "did:key:agent" "did:mailto:web.mail:alice"
                           ["store/add"; "upload/add"]));
      reflexivity.
  - apply (proj2 requested_abilities_check
             (confirm_of "did:web:service" "did:mailto:web.mail:alice"
                         "did:key:agent" ["store/add"])
             (confirm_of "did:web:service" "did:mailto:web.mail:alice"
                         "did:key:agent" ["*"]));
      reflexivity.
Defined.

Example authorize_escalation :
  authorize_derives
    (authorize_of "did:key:agent" "did:mailto:web.mail:alice"
                  ["store/add"; "store/remove"])
    (authorize_of "did:key:agent" "did:mailto:web.mail:alice"
                  ["store/add"; "upload/add"])
  = Fail (Failure_new "unauthorized nb.att.can store/remove").
Proof. vm_compute. reflexivity. Qed.

Lemma or_true_pass_first (first : Check) (rest : option Failure) :
  or_true (or_else (fail first) rest) = Pass → first = Pass.
Proof. destruct first; simpl; [done | discriminate]. Qed.

Lemma equalWith_pass {NB} (claim proof : ParsedCapability NB) :
  equalWith claim proof = Pass → cap_with claim = cap_with proof.
Proof.
  unfold equalWith.
  destruct (String.eqb_spec (cap_with claim) (cap_with proof));
    [done | discriminate].
Qed.

(** C3: each of the three override rules (access/authorize,
    access/confirm, access/delegate) passes only when the claim's [with]
    equals the proof's [with], and a pair that differs in [with] gets the
    failure of [equalWith], whatever its other fields are. *)
Theorem overrides_require_equal_with :
  guarded_by_equalWith authorize_derives
  ∧ guarded_by_equalWith confirm_derives
  ∧ guarded_by_equalWith delegate_derives.
Proof.
  repeat split.
  - intros H. by apply or_true_pass_first, equalWith_pass in H.
  - intros H. unfold authorize_derives.
    by rewrite (equalWith_differ _ _ H).
  - intros H. by apply or_true_pass_first, equalWith_pass in H.
  - intros H. unfold confirm_derives. by rewrite (equalWith_differ _ _ H).
  - intros H. by apply or_true_pass_first, equalWith_pass in H.
  - intros H. unfold delegate_derives. by rewrite (equalWith_differ _ _ H).
Qed.

Lemma overrides_require_equal_with_witness :
  authorize_derives
    (authorize_of "did:key:mallory" "did:mailto:web.mail:alice" ["*"])
    (authorize_of "did:key:agent" "did:mailto:web.mail:alice" ["*"])
  = Fail (Failure_with "access/authorize" "did:key:mallory" "did:key:agent")
  ∧ cap_with (delegate_of "did:key:space" ["a"])
    = cap_with (delegate_of "did:key:space" ["a"; "b"]).
Proof.
  split.
  - apply (proj1 overrides_require_equal_with
             (authorize_of "did:key:mallory" "did:mailto:web.mail:alice"
                           ["*"])
             (authorize_of "did:key:agent" "did:mailto:web.mail:alice"
                           ["*"])).
    simpl. discriminate.
  - apply (proj2 (proj2 overrides_require_equal_with)
             (delegate_of "did:key:space" ["a"])
             (delegate_of "did:key:space" ["a"; "b"])).
    vm_compute. reflexivity.
Defined.

Example absorbs_store : absorbs "store/*" "store/add" = true.
Proof. reflexivity. Qed.

Example absorbs_other : absorbs "store/*" "upload/add" = false.
Proof. reflexivity. Qed.


Example wildcard_of_access :
  Evaluator.wildcard_of "access/*" "access/authorize" = true
  ∧ Evaluator.wildcard_of "access/*" "store/add" = false
  ∧ Evaluator.wildcard_of "*" "store/add" = false
  ∧ Evaluator.wildcard_of "store/add" "store/add" = false.
Proof. vm_compute. done. Qed.

(** On the default rule a wildcard proof that constrains a param does not
    absorb a claim that escalates it. *)
Example constrained_wildcard_escalates :
  Evaluator.derives
    (fun _ claimed granted => negb (String.eqb claimed granted))
    (Evaluator.MkTriple "store/add" "did:key:space" (<["size" := "20"]> ∅))
    (Evaluator.MkTriple "store/*" "did:key:space" (<["size" := "10"]> ∅))
  = false.
Proof. vm_compute. done. Qed.




End AccessFacts.

(** ** Spaces: recovery, authorization and the mnemonic *)

Module SpaceFacts.
Import Ucan Space.

Lemma SESSION_LIFETIME_value : SESSION_LIFETIME = 31536000%Z.
Proof. reflexivity. Qed.

(** C6: for every space and account DID, [createRecovery] returns a
    delegation issued by the space's signing key to the account, whose only
    capability is [{ with: <the space's DID>, can: "*" }] and whose
    expiration is [Infinity]. *)
Theorem createRecovery_full_access `{Ed25519} (now : Z)
    (space : Model) (account : DID) :
  issuer (createRecovery now space account) = signer_did (signer space)
  ∧ audience (createRecovery now space account) = account
  ∧ capabilities (createRecovery now space account)
    = [MkCap "*" (signer_did (signer space)) None]
  ∧ expiration (createRecovery now space account) = Infinity.
Proof. unfold createRecovery, delegate. simpl. done. Qed.

Lemma truthy_after_epoch (now : Z) :
  (0 ≤ now)%Z → truthy (At (now + SESSION_LIFETIME)) = true.
Proof.
  intros Hnow. unfold truthy. apply negb_true_iff, Z.eqb_neq.
  rewrite SESSION_LIFETIME_value. lia.
Qed.

(** C7: called without an explicit expiration, at a clock reading [now]
    not before the epoch, [createAuthorization] returns a delegation that
    expires at [now + 31536000] ([60 * 60 * 24 * 365] seconds, one year),
    whichever access is asked for. *)
Theorem createAuthorization_default_expiration `{Ed25519}
    (spaceAccess : AccessMap) (now : Z) (space : Model)
    (agent : Principal) (access : option AccessMap) :
  (0 ≤ now)%Z →
  expiration
    (createAuthorization spaceAccess now space
       (MkAuthorizationOptions agent access None))
  = At (now + 31536000).
Proof.
  intros Hnow. unfold createAuthorization, delegate.
  cbn -[truthy SESSION_LIFETIME Z.add].
  rewrite (truthy_after_epoch now Hnow).
  cbn -[SESSION_LIFETIME Z.add]. by rewrite SESSION_LIFETIME_value.
Qed.

Section Mnemonic.
Context `{Ed25519} `{Bip39}.

(** The contract of the BIP39 library on 32 bytes of entropy: the mnemonic
    of an entropy decodes to that entropy. *)
Hypothesis bip39_roundtrip :
  ∀ entropy : bytes,
    length entropy = 32 →
    ∃ mnemonic,
      entropyToMnemonic entropy wordlist = Some mnemonic
      ∧ mnemonicToEntropy mnemonic wordlist = Some entropy.

Lemma derive_Some (key : bytes) (s : EdSigner) :
  derive key = Some s →
  length key = 32 ∧ s = MkSigner key (getPublicKey key).
Proof.
  unfold derive. destruct (Nat.eqb_spec (length key) 32); [| done].
  intros [= <-]. done.
Qed.

Lemma derive_secret (key : bytes) :
  length key = 32 → derive key = Some (MkSigner key (getPublicKey key)).
Proof. intros Hlen. unfold derive. by rewrite Hlen. Qed.

(** The signer of every [OwnedSpace] is the one derived from its secret. *)
Lemma OwnedSpace_derived (space : Model) :
  OwnedSpace space →
  length (secret (signer space)) = 32
  ∧ derive (secret (signer space)) = Some (signer space).
Proof.
  induction 1 as [random name space Hgen | mnemonic name space Hfrom
                 | space name Hspace IH].
  - unfold generate in Hgen. destruct (derive random) as [s |] eqn:Hd; [| done].
    injection Hgen as <-. apply derive_Some in Hd as [Hlen ->]. simpl.
    split; [done |]. by apply derive_secret.
  - unfold fromMnemonic in Hfrom.
    destruct (mnemonicToEntropy mnemonic wordlist) as [key |]; [| done].
    destruct (derive key) as [s |] eqn:Hd; [| done].
    injection Hfrom as <-. apply derive_Some in Hd as [Hlen ->]. simpl.
    split; [done |]. by apply derive_secret.
  - exact IH.
Qed.

(** C8: for every owned space and name, the mnemonic of the space is
    accepted by [fromMnemonic], and the space it returns has a signer with
    the encoding of the original signer (and the given name). *)
Theorem mnemonic_roundtrip (space : Model) (name : string) :
  OwnedSpace space →
  ∃ mnemonic recovered,
    toMnemonic space = Some mnemonic
    ∧ fromMnemonic mnemonic name = Some recovered
    ∧ encode (signer recovered) = encode (signer space)
    ∧ Space.name recovered = name.
Proof.
  intros Howned. destruct (OwnedSpace_derived space Howned) as [Hlen Hderive].
  destruct (bip39_roundtrip _ Hlen) as (mnemonic & Hto & Hfrom).
  exists mnemonic, (MkModel (signer space) name).
  unfold toMnemonic, fromMnemonic. rewrite Hto, Hfrom, Hderive. done.
Qed.
End Mnemonic.

Lemma createAuthorization_default_expiration_witness :
  (0 ≤ 1700000000)%Z
  ∧ expiration
      (@createAuthorization Statements.sample_ed25519 [] 1700000000
         Statements.sample_space
         (MkAuthorizationOptions (MkPrincipal "did:key:agent") None None))
    = At 1731536000.
Proof.
  split; [lia |].
  apply (@createAuthorization_default_expiration Statements.sample_ed25519
           [] 1700000000 Statements.sample_space
           (MkPrincipal "did:key:agent") None).
  lia.
Defined.

Lemma sample_bip39_roundtrip (entropy : bytes) :
  length entropy = 32 →
  ∃ mnemonic,
    @entropyToMnemonic Statements.sample_bip39 entropy tt = Some mnemonic
    ∧ @mnemonicToEntropy Statements.sample_bip39 mnemonic tt = Some entropy.
Proof.
  intros _. exists (string_of_list_byte entropy). simpl.
  by rewrite list_byte_of_string_of_list_byte.
Defined.

Lemma sample_space_owned :
  @OwnedSpace Statements.sample_ed25519 Statements.sample_bip39
              Statements.sample_space.
Proof.
  apply (@Owned_generate Statements.sample_ed25519 Statements.sample_bip39
           Statements.sample_secret "test").
  reflexivity.
Defined.

Lemma mnemonic_roundtrip_witness :
  ∃ mnemonic recovered,
    @toMnemonic Statements.sample_bip39 Statements.sample_space
    = Some mnemonic
    ∧ @fromMnemonic Statements.sample_ed25519 Statements.sample_bip39
        mnemonic "import"
      = Some recovered
    ∧ @encode Statements.sample_ed25519 (signer recovered)
      = @encode Statements.sample_ed25519 (signer Statements.sample_space)
    ∧ Space.name recovered = "import".
Proof.
  apply (@mnemonic_roundtrip Statements.sample_ed25519
           Statements.sample_bip39 sample_bip39_roundtrip
           Statements.sample_space "import" sample_space_owned).
Defined.

End SpaceFacts.


(** ** Objects: spaces and the memory driver *)

Module StoreFacts.
Import Store SpaceObjects Memory.

Lemma alloc_fresh (o : Obj) (σ : Heap) :
  σ !! (alloc o σ).1 = None ∧ (alloc o σ).2 = <[(alloc o σ).1 := o]> σ.
Proof.
  unfold alloc. simpl. split; [| done].
  apply not_elem_of_dom, is_fresh.
Qed.

(** Allocation leaves every object already there as it is. *)
Lemma alloc_preserves (o : Obj) (σ : Heap) (l : loc) (old : Obj) :
  σ !! l = Some old → (alloc o σ).2 !! l = Some old.
Proof.
  intros Hl. destruct (alloc_fresh o σ) as [Hfresh ->].
  rewrite lookup_insert_ne; [done |]. intros Heq. rewrite Heq in Hfresh.
  congruence.
Qed.

Lemma alloc_lookup (o : Obj) (σ : Heap) :
  (alloc o σ).2 !! (alloc o σ).1 = Some o.
Proof.
  destruct (alloc_fresh o σ) as [_ ->]. apply lookup_insert_eq.
Qed.

Lemma get_preserved (σ σ' : Heap) (l : loc) (k : string) (o : Obj) :
  σ !! l = Some o → σ' !! l = Some o → get σ' l k = get σ l k.
Proof. intros H1 H2. unfold get. by rewrite H1, H2. Qed.

Lemma get_alloc (o : Obj) (σ : Heap) (k : string) :
  get (alloc o σ).2 (alloc o σ).1 k = default VUndefined (props o !! k).
Proof. unfold get. by rewrite alloc_lookup. Qed.

(** The outcome of an allocation, with what it leaves in place. *)
Lemma alloc_outcome (o : Obj) (σ : Heap) :
  ∃ l σ',
    alloc o σ = (l, σ')
    ∧ σ !! l = None
    ∧ σ' !! l = Some o
    ∧ (∀ l0 old, σ !! l0 = Some old → σ' !! l0 = Some old).
Proof.
  exists (alloc o σ).1, (alloc o σ).2. split; [by destruct (alloc o σ) |].
  split; [apply alloc_fresh |]. split; [apply alloc_lookup |].
  intros l0 old. apply alloc_preserves.
Qed.

Lemma get_at (σ : Heap) (l : loc) (o : Obj) (k : string) :
  σ !! l = Some o → get σ l k = default VUndefined (props o !! k).
Proof. intros Hl. unfold get. by rewrite Hl. Qed.

(** C9: [withName] on a [SharedSpace] returns a new [SharedSpace] named
    [n] with the [id] and [delegation] of the receiver and with a new meta
    object that agrees with the receiver's on every field but [name]; on an
    [OwnedSpace] it returns a new [OwnedSpace] named [n] with the
    receiver's signer.  Neither changes any object that existed before, the
    receiver and its meta included. *)
Theorem withName_changes_only_name (σ : Heap) (this : loc) (n : string) :
  (∃ s' σ',
     SharedSpace_withName this n σ = (s', σ')
     ∧ σ !! s' = None
     ∧ (∀ l o, σ !! l = Some o → σ' !! l = Some o)
     ∧ class <$> σ' !! s' = Some SharedSpaceClass
     ∧ SharedSpace_name σ' s' = Some (VString n)
     ∧ get σ' s' "id" = get σ this "id"
     ∧ get σ' s' "delegation" = get σ this "delegation"
     ∧ (∃ meta', get σ' s' "meta" = VRef meta' ∧ σ !! meta' = None)
     ∧ (∀ k, k ≠ "name" → meta_of σ' s' !! k = meta_of σ this !! k))
  ∧ (∃ s' σ',
       OwnedSpace_withName this n σ = (s', σ')
       ∧ σ !! s' = None
       ∧ (∀ l o, σ !! l = Some o → σ' !! l = Some o)
       ∧ class <$> σ' !! s' = Some OwnedSpaceClass
       ∧ get σ' s' "name" = VString n
       ∧ get σ' s' "signer" = get σ this "signer").
Proof.
  split.
  - unfold SharedSpace_withName, SharedSpace_new.
    destruct (alloc_outcome
                (MkObj PlainObject
                       (<["name" := VString n]>
                          (spread σ (get σ this "meta")))) σ)
      as (m & σ1 & -> & Hm & Hm1 & Hkeep1).
    destruct (alloc_outcome
                (MkObj SharedSpaceClass
                       (<["delegation" := get σ this "delegation"]>
                          (<["id" := get σ this "id"]>
                             (<["meta" := VRef m]> ∅)))) σ1)
      as (s' & σ' & -> & Hs & Hs1 & Hkeep2).
    exists s', σ'. split; [done |].
    assert (Hmeta : get σ' s' "meta" = VRef m)
      by (rewrite (get_at _ _ _ _ Hs1); done).
    split.
    { destruct (σ !! s') as [o |] eqn:E; [| done].
      apply Hkeep1 in E. congruence. }
    split; [intros l o Hl; by apply Hkeep2, Hkeep1 |].
    split; [by rewrite Hs1 |].
    split.
    { unfold SharedSpace_name. rewrite Hmeta.
      rewrite (get_at _ _ _ _ (Hkeep2 _ _ Hm1)). simpl.
      by rewrite lookup_insert_eq. }
    split; [rewrite (get_at _ _ _ _ Hs1); done |].
    split; [rewrite (get_at _ _ _ _ Hs1); done |].
    split; [by exists m |].
    intros k Hk. unfold meta_of at 1. rewrite Hmeta. unfold spread at 1.
    rewrite (Hkeep2 _ _ Hm1). simpl. by rewrite lookup_insert_ne.
  - unfold OwnedSpace_withName, OwnedSpace_new.
    destruct (alloc_outcome
                (MkObj OwnedSpaceClass
                       (<["signer" := get σ this "signer"]>
                          (<["name" := VString n]> ∅))) σ)
      as (s' & σ' & -> & Hs & Hs1 & Hkeep).
    exists s', σ'. split; [done |]. split; [done |]. split; [done |].
    split; [by rewrite Hs1 |].
    split; rewrite (get_at _ _ _ _ Hs1); done.
Qed.

Example SharedSpace_withName_sample :
  let '(s', σ') := SharedSpace_withName 1%positive "new" Statements.sample_heap in
  SharedSpace_name σ' s' = Some (VString "new")
  ∧ SharedSpace_name σ' 1%positive = Some (VString "old")
  ∧ meta_of σ' s' !! "type" = Some (VString "space")
  ∧ get σ' s' "id" = VString "did:key:space"
  ∧ get σ' s' "meta" ≠ get σ' 1%positive "meta".
Proof. vm_compute. repeat split; discriminate. Qed.

Lemma keys_length_at (σ : Heap) (l : loc) (o : Obj) :
  σ !! l = Some o → keys_length σ l = size (props o).
Proof. intros Hl. unfold keys_length. by rewrite Hl. Qed.

(** C10: a driver loads nothing when new and after [reset]; after
    [save(record)] of a record with at least one key it loads a new plain
    object with the properties of the record, which is not the record
    itself (the record stays as it was); after [save] of a record without
    keys it loads nothing. *)
Theorem MemoryDriver_load_after :
  (∀ σ : Heap, load new σ = None)
  ∧ (∀ (d : MemoryDriver) (σ : Heap),
       load (reset d σ).1 (reset d σ).2 = None ∧ (reset d σ).2 = σ)
  ∧ (∀ (d : MemoryDriver) (σ : Heap) (record : loc) (o : Obj),
       σ !! record = Some o →
       (props o ≠ ∅ →
        ∃ copy,
          load (save d record σ).1 (save d record σ).2 = Some copy
          ∧ copy ≠ record
          ∧ σ !! copy = None
          ∧ (save d record σ).2 !! copy = Some (MkObj PlainObject (props o))
          ∧ (save d record σ).2 !! record = Some o)
       ∧ (props o = ∅ →
          load (save d record σ).1 (save d record σ).2 = None)).
Proof.
  split; [done |]. split; [done |].
  intros d σ record o Hrecord. unfold save, spread. rewrite Hrecord.
  destruct (alloc_outcome (MkObj PlainObject (props o)) σ)
    as (copy & σ' & -> & Hfresh & Hcopy & Hkeep).
  simpl. unfold load. simpl. rewrite (keys_length_at _ _ _ Hcopy). simpl.
  split.
  - intros Hkeys. exists copy.
    destruct (Nat.eqb_spec (size (props o)) 0) as [Hzero | _].
    { by apply map_size_empty_iff in Hzero. }
    split; [done |]. split; [intros ->; congruence |].
    split; [done |]. split; [done |]. by apply Hkeep.
  - intros ->. by rewrite map_size_empty.
Qed.

Lemma MemoryDriver_load_after_witness :
  let σ : Heap :=
    <[1%positive := MkObj PlainObject (<["meta" := VString "agent"]> ∅)]> ∅ in
  σ !! 1%positive = Some (MkObj PlainObject (<["meta" := VString "agent"]> ∅))
  ∧ ∃ copy,
      load (save new 1%positive σ).1 (save new 1%positive σ).2 = Some copy
      ∧ copy ≠ 1%positive.
Proof.
  simpl. split; [reflexivity |].
  assert (Hrecord :
            (<[1%positive
               := MkObj PlainObject (<["meta" := VString "agent"]> ∅)]> ∅
               : Heap) !! 1%positive
            = Some (MkObj PlainObject (<["meta" := VString "agent"]> ∅)))
    by reflexivity.
  destruct (proj2 (proj2 MemoryDriver_load_after) new _ _ _ Hrecord)
    as [Hsome _].
  destruct Hsome as (copy & Hload & Hne & _).
  - simpl. intros Hempty.
    apply (f_equal (fun m : gmap string Value => m !! "meta")) in Hempty.
    discriminate Hempty.
  - exists copy. split; [exact Hload | exact Hne].
Defined.

Example MemoryDriver_save_load :
  let σ : Heap :=
    <[1%positive := MkObj PlainObject (<["meta" := VString "agent"]> ∅)]> ∅ in
  load (save new 1%positive σ).1 (save new 1%positive σ).2 = Some 2%positive
  ∧ load (save new 2%positive σ).1 (save new 2%positive σ).2 = None.
Proof. vm_compute. done. Qed.

End StoreFacts.

(** ** The authorization workflow *)

Module WorkflowFacts.
Import Ucan Workflow.

(** C5: confirming a pending request of agent [G] for account [A] with
    requested abilities [[{ can: "*" }]] issues exactly two delegations,
    both then returned by a claim of [G]: the authorization (issuer [A],
    audience [G], infinite expiration, capabilities
    [[{ can: "*", with: "ucan:*" }]]) and the attestation (issuer the
    authority, sole capability
    [{ can: "ucan/attest", with: authority, nb: { proof } }] with [proof]
    the link of the authorization). *)
Theorem confirmation_issues_session (authority : DID)
    (cid : Delegation → Access.Link) (st : State) (id : positive)
    (G A : DID) :
  confirmations st !! id
  = Some (MkPending G (Access.MkAuthorizationRequest A [Access.MkRequest "*"]),
          AwaitingConfirmation) →
  ∃ authz attest st',
    confirm authority cid id st = Some ([authz; attest], st')
    ∧ issuer authz = A
    ∧ audience authz = G
    ∧ expiration authz = Infinity
    ∧ capabilities authz = [MkCap "*" "ucan:*" None]
    ∧ issuer attest = authority
    ∧ capabilities attest
      = [MkCap "ucan/attest" authority (Some (<["proof" := cid authz]> ∅))]
    ∧ (claim G st').1 = (default [] (queue st !! G) ++ [authz; attest])%list
    ∧ (queue st !! G = None → (claim G st').1 = [authz; attest])
    ∧ queue (claim G st').2 !! G = None.
Proof.
  intros Hpending. unfold confirm. rewrite Hpending.
  eexists _, _, _. split; [reflexivity |]. simpl.
  repeat (split; [reflexivity |]).
  unfold put. simpl. rewrite lookup_insert_eq.
  split; [reflexivity |]. split; [by intros -> |]. apply lookup_delete_eq.
Qed.

Lemma confirmation_issues_session_witness :
  ∃ authz attest st',
    confirm "did:web:authority" Statements.sample_cid
            Statements.sample_requested.1 Statements.sample_requested.2
    = Some ([authz; attest], st')
    ∧ (claim "did:key:agent" st').1 = [authz; attest]
    ∧ issuer authz = "did:mailto:example:alice".
Proof.
  destruct (confirmation_issues_session "did:web:authority"
              Statements.sample_cid Statements.sample_requested.2
              Statements.sample_requested.1
              "did:key:agent" "did:mailto:example:alice")
    as (authz & attest & st' & Hconfirm & Hiss & _ & _ & _ & _ & _ & _
        & Hclaim & _).
  - vm_compute. reflexivity.
  - exists authz, attest, st'. split; [exact Hconfirm |].
    split; [| exact Hiss]. apply Hclaim. vm_compute. reflexivity.
Defined.

(** Confirming again is a no-op success with the same two delegations. *)
Lemma confirm_idempotent (authority : DID) (cid : Delegation → Access.Link)
    (st st' : State) (id : positive) (ds : list Delegation) :
  confirm authority cid id st = Some (ds, st') →
  confirm authority cid id st' = Some (ds, st').
Proof.
  unfold confirm. destruct (confirmations st !! id) as [[p []] |] eqn:E;
    intros [= <- <-]; simpl.
  - by rewrite lookup_insert_eq.
  - by rewrite E.
Qed.

End WorkflowFacts.


(** ** More on the derivation rules *)

Module AccessOrder.
Import Js Utils Access JsFacts Statements AccessFacts.

(** What the fold of [setDifference] appends to its accumulator is taken
    from the minuend in order. *)
Lemma setDifference_acc_sublist (minuend : list string)
    (subtrahend acc : JsSet string) :
  ∃ rest,
    foldl (fun difference e =>
             if negb (set_has subtrahend e) then set_add difference e
             else difference) acc minuend
    = (acc ++ rest)%list
    ∧ rest `sublist_of` minuend.
Proof.
  revert acc. induction minuend as [| y ys IH]; intros acc; simpl.
  - exists []. split; [by rewrite app_nil_r | constructor].
  - destruct (negb (set_has subtrahend y)).
    + assert (Hadd : set_add acc y = acc ∨ set_add acc y = (acc ++ [y])%list)
        by (unfold set_add; destruct (set_has acc y); tauto).
      destruct Hadd as [-> | ->].
      * destruct (IH acc) as (rest & -> & Hsub).
        exists rest. split; [done | by apply sublist_cons].
      * destruct (IH (acc ++ [y])%list) as (rest & -> & Hsub).
        exists (y :: rest). split; [by rewrite <- app_assoc |].
        by apply sublist_skip.
    + destruct (IH acc) as (rest & -> & Hsub).
      exists rest. split; [done | by apply sublist_cons].
Qed.

Lemma filter_not_in_snoc (acc l : list string) (y : string) :
  filter (fun x => x ∉ (acc ++ [y])%list) l
  = filter (fun x => x ∉ acc) (filter (fun x => x ≠ y) l).
Proof.
  rewrite list_filter_filter. apply list_filter_iff. intros x.
  rewrite elem_of_app, list_elem_of_singleton. tauto.
Qed.

Lemma filter_not_in_seen (acc l : list string) (y : string) :
  y ∈ acc →
  filter (fun x => x ∉ acc) (filter (fun x => x ≠ y) l)
  = filter (fun x => x ∉ acc) l.
Proof.
  intros Hy. rewrite list_filter_filter. apply list_filter_iff. intros x.
  split; [tauto |]. intros Hx. split; [done |]. by intros ->.
Qed.

(** The fold of [setDifference], from an accumulator on: it appends the
    elements the subtrahend lacks, at their first appearance, unless the
    accumulator holds them. *)
Lemma setDifference_acc_first (minuend : list string)
    (subtrahend acc : JsSet string) :
  foldl (fun difference e =>
           if negb (set_has subtrahend e) then set_add difference e
           else difference) acc minuend
  = (acc ++ filter (fun x => x ∉ acc)
              (first_appearances
                 (filter (fun x => x ∉ subtrahend) minuend)))%list.
Proof.
  revert acc. induction minuend as [| y ys IH]; intros acc.
  - simpl. by rewrite filter_nil, app_nil_r.
  - cbn [foldl]. destruct (set_has subtrahend y) eqn:Hhas; cbn [negb].
    + apply set_has_true in Hhas.
      rewrite (filter_cons_False _ y ys) by (intros Hout; by apply Hout).
      apply IH.
    + apply set_has_false in Hhas.
      rewrite (filter_cons_True _ y ys) by done. cbn [first_appearances].
      unfold set_add. destruct (set_has acc y) eqn:Hacc.
      * apply set_has_true in Hacc. rewrite IH.
        rewrite filter_cons_False by (intros Hout; by apply Hout).
        by rewrite filter_not_in_seen.
      * apply set_has_false in Hacc. rewrite IH.
        rewrite filter_cons_True by done.
        rewrite <- app_assoc. simpl. by rewrite filter_not_in_snoc.
Qed.

Lemma filter_not_in_nil (l : list string) :
  filter (fun x => x ∉ ([] : list string)) l = l.
Proof.
  induction l as [| x xs IH]; [done |].
  rewrite filter_cons_True by apply not_elem_of_nil. by rewrite IH.
Qed.

(** [setDifference] returns the elements of the minuend that the
    subtrahend lacks in the order of their first appearance, each once; it
    is therefore a duplicate-free subsequence of the minuend.  This is the
    list, and the order, that the failure of [subsetCapabilities] and of
    [subsetsNbDelegations] joins with [", "]. *)
Theorem setDifference_ordered (minuend : list string)
    (subtrahend : JsSet string) :
  setDifference minuend subtrahend
  = first_appearances (filter (fun x => x ∉ subtrahend) minuend)
  ∧ setDifference minuend subtrahend `sublist_of` minuend
  ∧ NoDup (setDifference minuend subtrahend)
  ∧ (∀ x, x ∈ setDifference minuend subtrahend
          ↔ x ∈ minuend ∧ x ∉ subtrahend)
  ∧ (∀ claim proof : list CapabilityRequest,
       subsetCapabilities claim proof
       = if bool_decide ("*" ∈ map can proof) then Pass
         else match first_appearances
                      (filter (fun a => a ∉ map can proof) (map can claim))
              with
              | [] => Pass
              | escalated =>
                  Fail (Failure_new
                          ("unauthorized nb.att.can "
                             +:+ join ", " escalated))
              end)
  ∧ (∀ claim proof : ParsedCapability DelegateNb,
       subsetsNbDelegations claim proof
       = match first_appearances
                 (filter
                    (fun l =>
                       l ∉ map (fun entry => toString entry.2)
                               (default [] (delegations (cap_nb proof))))
                    (map (fun entry => toString entry.2)
                         (default [] (delegations (cap_nb claim)))))
         with
         | [] => Pass
         | missing =>
             Fail (Failure_new
                     ("unauthorized nb.delegations "
                        +:+ join ", " missing))
         end).
Proof.
  assert (Hfirst : ∀ m s,
            setDifference m s
            = first_appearances (filter (fun x => x ∉ s) m)).
  { intros m s. unfold setDifference, set_empty.
    rewrite setDifference_acc_first. simpl. apply filter_not_in_nil. }
  assert (Hfrom : ∀ (m allowed : list string),
            filter (fun x => x ∉ set_from allowed) m
            = filter (fun x => x ∉ allowed) m).
  { intros m allowed. apply list_filter_iff. intros x.
    by rewrite elem_of_set_from. }
  split; [apply Hfirst |]. split; [| split; [| split; [| split]]].
  - unfold setDifference, set_empty.
    destruct (setDifference_acc_sublist minuend subtrahend [])
      as (rest & -> & Hsub).
    done.
  - apply NoDup_setDifference.
  - intros x. apply elem_of_setDifference.
  - intros claim proof. rewrite subsetCapabilities_eq, Hfirst, Hfrom. done.
  - intros claim proof. unfold subsetsNbDelegations, delegatedCids.
    rewrite Hfirst, Hfrom. unfold set_size, set_spread, Nat.ltb.
    by destruct (first_appearances _).
Qed.

Example setDifference_first_appearance :
  setDifference ["e"; "a"; "d"; "e"] (set_from ["a"; "b"; "c"]) = ["e"; "d"].
Proof. vm_compute. reflexivity. Qed.

Lemma subsetCapabilities_pass_iff (claim proof : list CapabilityRequest) :
  subsetCapabilities claim proof = Pass
  ↔ "*" ∈ map can proof ∨ map can claim ⊆ map can proof.
Proof.
  destruct (subsetCapabilities_verdict claim proof) as [Hall Hnone].
  destruct (decide ("*" ∈ map can proof)) as [Hin | Hout].
  - split; [by left | intros _; by apply Hall].
  - destruct (Hnone Hout) as [Hiff _]. rewrite Hiff. split; [by right |].
    by intros [? | ?].
Qed.

Lemma subsetsNbDelegations_pass_iff
    (claim proof : ParsedCapability DelegateNb) :
  subsetsNbDelegations claim proof = Pass
  ↔ delegatedCids claim ⊆ delegatedCids proof.
Proof.
  unfold subsetsNbDelegations.
  destruct (setDifference_set_from (delegatedCids claim)
                                   (delegatedCids proof))
    as (_ & _ & Hnil).
  rewrite <- Hnil. unfold set_size, set_spread, Nat.ltb.
  destruct (setDifference (delegatedCids claim)
                          (set_from (delegatedCids proof)));
    simpl; split; intros; congruence.
Qed.

(** The requested-abilities check is a preorder on requests: a request
    list is covered by itself, and coverage composes along a chain. *)
Theorem subsetCapabilities_preorder :
  (∀ a, subsetCapabilities a a = Pass)
  ∧ (∀ a b c,
       subsetCapabilities a b = Pass →
       subsetCapabilities b c = Pass →
       subsetCapabilities a c = Pass).
Proof.
  split.
  - intros a. apply subsetCapabilities_pass_iff. by right.
  - intros a b c Hab Hbc.
    apply subsetCapabilities_pass_iff in Hab, Hbc.
    apply subsetCapabilities_pass_iff.
    destruct Hbc as [Hall | Hbc]; [by left |].
    destruct Hab as [Hall | Hab]; [left; by apply Hbc |].
    right. intros x Hx. by apply Hbc, Hab.
Qed.

Lemma subsetCapabilities_preorder_witness :
  subsetCapabilities (map MkRequest ["store/add"])
                     (map MkRequest ["upload/add"; "*"])
  = Pass.
Proof.
  apply (proj2 subsetCapabilities_preorder
           (map MkRequest ["store/add"])
           (map MkRequest ["store/add"; "store/remove"])
           (map MkRequest ["upload/add"; "*"]));
    vm_compute; reflexivity.
Defined.

(** A narrower request and a wider grant keep the check passing. *)
Theorem subsetCapabilities_monotone
    (claim claim' proof proof' : list CapabilityRequest) :
  subsetCapabilities claim proof = Pass →
  map can claim' ⊆ map can claim →
  map can proof ⊆ map can proof' →
  subsetCapabilities claim' proof' = Pass.
Proof.
  intros Hpass Hclaim Hproof.
  apply subsetCapabilities_pass_iff in Hpass.
  apply subsetCapabilities_pass_iff.
  destruct Hpass as [Hall | Hsub]; [left; by apply Hproof |].
  right. intros x Hx. by apply Hproof, Hsub, Hclaim.
Qed.

Lemma subsetCapabilities_monotone_witness :
  subsetCapabilities (map MkRequest ["store/add"])
                     (map MkRequest ["space/info"; "store/add"; "store/remove"])
  = Pass.
Proof.
  apply (subsetCapabilities_monotone
           (map MkRequest ["store/add"; "store/remove"])
           (map MkRequest ["store/add"])
           (map MkRequest ["store/remove"; "store/add"])
           (map MkRequest ["space/info"; "store/add"; "store/remove"])).
  - vm_compute. reflexivity.
  - intros x Hx. apply list_elem_of_In in Hx. apply list_elem_of_In.
    simpl in *. tauto.
  - intros x Hx. apply list_elem_of_In in Hx. apply list_elem_of_In.
    simpl in *. tauto.
Defined.

(** Asking for the universal wildcard is an escalation unless the proof
    holds it: the check fails and its message lists ["*"]. *)
Theorem subsetCapabilities_sudo (claim proof : list CapabilityRequest) :
  "*" ∈ map can claim →
  (subsetCapabilities claim proof = Pass ↔ "*" ∈ map can proof).
Proof.
  intros Hclaim. rewrite subsetCapabilities_pass_iff. split.
  - intros [Hall | Hsub]; [done | by apply Hsub].
  - by left.
Qed.

Lemma subsetCapabilities_sudo_witness :
  subsetCapabilities (map MkRequest ["store/add"; "*"])
                     (map MkRequest ["store/add"; "store/*"])
  ≠ Pass.
Proof.
  intros Hpass.
  apply (subsetCapabilities_sudo
           (map MkRequest ["store/add"; "*"])
           (map MkRequest ["store/add"; "store/*"])) in Hpass.
  - apply list_elem_of_In in Hpass. simpl in Hpass.
    destruct Hpass as [H | [H | []]]; discriminate H.
  - apply list_elem_of_In. simpl. tauto.
Defined.

Lemma equal_pass (child parent constraint : string) :
  equal child parent constraint = Pass ↔ child = parent.
Proof.
  unfold equal. destruct (String.eqb_spec child parent); split; congruence.
Qed.

Lemma equalWith_pass_iff {NB} (claim proof : ParsedCapability NB) :
  equalWith claim proof = Pass ↔ cap_with claim = cap_with proof.
Proof. split; [apply equalWith_pass | apply equalWith_same]. Qed.

(** A rule passes exactly when each of its checks passes. *)
Lemma authorize_derives_pass_iff
    (claim proof : ParsedCapability AuthorizationRequest) :
  authorize_derives claim proof = Pass
  ↔ cap_with claim = cap_with proof
    ∧ iss (cap_nb claim) = iss (cap_nb proof)
    ∧ subsetCapabilities (att (cap_nb claim)) (att (cap_nb proof)) = Pass.
Proof.
  rewrite <- equalWith_pass_iff, <- (equal_pass _ _ "iss").
  unfold authorize_derives.
  destruct (equalWith claim proof), (equal _ _ "iss"),
    (subsetCapabilities _ _); simpl; split; try done; intros (? & ? & ?);
    done.
Qed.

Lemma confirm_derives_pass_iff (claim proof : ParsedCapability ConfirmRequest) :
  confirm_derives claim proof = Pass
  ↔ cap_with claim = cap_with proof
    ∧ confirm_iss (cap_nb claim) = confirm_iss (cap_nb proof)
    ∧ confirm_aud (cap_nb claim) = confirm_aud (cap_nb proof)
    ∧ subsetCapabilities (confirm_att (cap_nb claim))
                         (confirm_att (cap_nb proof)) = Pass.
Proof.
  rewrite <- equalWith_pass_iff, <- (equal_pass _ _ "iss"),
    <- (equal_pass _ _ "aud").
  unfold confirm_derives.
  destruct (equalWith claim proof), (equal _ _ "iss"), (equal _ _ "aud"),
    (subsetCapabilities _ _); simpl; split; try done;
    intros (? & ? & ? & ?); done.
Qed.

Lemma delegate_derives_pass_iff (claim proof : ParsedCapability DelegateNb) :
  delegate_derives claim proof = Pass
  ↔ cap_with claim = cap_with proof
    ∧ delegatedCids claim ⊆ delegatedCids proof.
Proof.
  rewrite <- equalWith_pass_iff, <- subsetsNbDelegations_pass_iff.
  unfold delegate_derives.
  destruct (equalWith claim proof), (subsetsNbDelegations claim proof);
    simpl; split; try done; intros (? & ?); done.
Qed.

(** Each of the three derivation rules is reflexive and transitive: a
    capability derives from itself, and if [a] derives from [b] and [b]
    from [c] then [a] derives from [c], so delegation chains compose. *)
Theorem derives_preorder :
  (∀ c, authorize_derives c c = Pass)
  ∧ (∀ a b c, authorize_derives a b = Pass → authorize_derives b c = Pass →
              authorize_derives a c = Pass)
  ∧ (∀ c, confirm_derives c c = Pass)
  ∧ (∀ a b c, confirm_derives a b = Pass → confirm_derives b c = Pass →
              confirm_derives a c = Pass)
  ∧ (∀ c, delegate_derives c c = Pass)
  ∧ (∀ a b c, delegate_derives a b = Pass → delegate_derives b c = Pass →
              delegate_derives a c = Pass).
Proof.
  destruct subsetCapabilities_preorder as [Hrefl Htrans].
  repeat split.
  - intros c. apply authorize_derives_pass_iff. done.
  - intros a b c (Hw1 & Hi1 & Hs1)%authorize_derives_pass_iff
                 (Hw2 & Hi2 & Hs2)%authorize_derives_pass_iff.
    apply authorize_derives_pass_iff.
    split; [congruence |]. split; [congruence |]. by eapply Htrans.
  - intros c. apply confirm_derives_pass_iff. done.
  - intros a b c (Hw1 & Hi1 & Ha1 & Hs1)%confirm_derives_pass_iff
                 (Hw2 & Hi2 & Ha2 & Hs2)%confirm_derives_pass_iff.
    apply confirm_derives_pass_iff.
    split; [congruence |]. split; [congruence |]. split; [congruence |].
    by eapply Htrans.
  - intros c. apply delegate_derives_pass_iff. done.
  - intros a b c (Hw1 & Hs1)%delegate_derives_pass_iff
                 (Hw2 & Hs2)%delegate_derives_pass_iff.
    apply delegate_derives_pass_iff. split; [congruence |].
    intros x Hx. by apply Hs2, Hs1.
Qed.

Lemma derives_preorder_witness :
  delegate_derives (delegate_of "did:key:space" ["a"])
                   (delegate_of "did:key:space" ["c"; "b"; "a"])
  = Pass.
Proof.
  apply (proj2 (proj2 (proj2 (proj2 (proj2 derives_preorder))))
           (delegate_of "did:key:space" ["a"])
           (delegate_of "did:key:space" ["a"; "b"])
           (delegate_of "did:key:space" ["c"; "b"; "a"]));
    vm_compute; reflexivity.
Defined.

Lemma delegatedCids_nil (c : ParsedCapability DelegateNb) :
  delegatedCids c = []
  ↔ delegations (cap_nb c) = None ∨ delegations (cap_nb c) = Some [].
Proof.
  unfold delegatedCids.
  destruct (delegations (cap_nb c)) as [[| entry entries] |]; simpl.
  - split; [by right | done].
  - split; [done |]. intros [? | ?]; done.
  - split; [by left | done].
Qed.

(** The [nb.delegations] field may be absent.  With equal resources, a
    claim without it derives from every proof, and a proof without it (or
    with an empty dictionary) backs exactly the claims whose dictionary is
    absent or empty: a claim that lists any link is rejected. *)
Theorem delegate_derives_absent (claim proof : ParsedCapability DelegateNb) :
  cap_with claim = cap_with proof →
  (delegations (cap_nb claim) = None → delegate_derives claim proof = Pass)
  ∧ (delegations (cap_nb proof) = None ∨ delegations (cap_nb proof) = Some [] →
     (delegate_derives claim proof = Pass
      ↔ delegations (cap_nb claim) = None
        ∨ delegations (cap_nb claim) = Some [])).
Proof.
  intros Hwith. rewrite delegate_derives_pass_iff. split.
  - intros Hnone. split; [done |].
    assert (Hnil : delegatedCids claim = [])
      by (apply delegatedCids_nil; by left).
    rewrite Hnil. intros x Hx. by apply elem_of_nil in Hx.
  - intros Hproof. apply delegatedCids_nil in Hproof. rewrite Hproof. split.
    + intros [_ Hsub]. apply delegatedCids_nil.
      destruct (delegatedCids claim) as [| x xs]; [done |].
      specialize (Hsub x (list_elem_of_here _ _)). by apply elem_of_nil in Hsub.
    + intros Hclaim. apply delegatedCids_nil in Hclaim. rewrite Hclaim. done.
Qed.

Lemma delegate_derives_absent_witness :
  delegate_derives
    (MkCapability "access/delegate" "did:key:space" (MkDelegateNb None))
    (delegate_keyed "did:key:space" ["a"])
  = Pass
  ∧ delegate_derives
      (delegate_keyed "did:key:space" ["a"])
      (MkCapability "access/delegate" "did:key:space" (MkDelegateNb None))
    ≠ Pass.
Proof.
  split.
  - apply (proj1 (delegate_derives_absent
                    (MkCapability "access/delegate" "did:key:space"
                                  (MkDelegateNb None))
                    (delegate_keyed "did:key:space" ["a"]) eq_refl)).
    reflexivity.
  - intros Hpass.
    apply (proj2 (delegate_derives_absent
                    (delegate_keyed "did:key:space" ["a"])
                    (MkCapability "access/delegate" "did:key:space"
                                  (MkDelegateNb None)) eq_refl)) in Hpass.
    + destruct Hpass as [H | H]; discriminate H.
    + left. reflexivity.
Defined.

End AccessOrder.


(** ** More on spaces: granted capabilities and shared spaces *)

Module SpaceGrants.
Import Ucan Space Store SpaceObjects SharedSpaces StoreFacts.

(** [toCapabilities] lists one capability for every enabled ability of
    every subject, on that subject and without caveats, and nothing else. *)
Theorem toCapabilities_exact (allow : list (string * AccessMap))
    (c : Capability) :
  c ∈ toCapabilities allow
  ↔ nb c = None
    ∧ ∃ abilities details,
        (with_ c, abilities) ∈ allow ∧ (can c, Some details) ∈ abilities.
Proof.
  unfold toCapabilities. rewrite list_elem_of_In, in_flat_map. split.
  - intros ([subject abilities] & Hallow & Hin).
    apply in_flat_map in Hin as ([ability details] & Habilities & Hc).
    destruct details as [details |]; [| done].
    destruct Hc as [<- | []]. simpl. split; [done |].
    exists abilities, details. by rewrite !list_elem_of_In.
  - intros (Hnb & abilities & details & Hallow & Habilities).
    exists (with_ c, abilities). split; [by apply list_elem_of_In |].
    apply in_flat_map. exists (can c, Some details).
    split; [by apply list_elem_of_In |]. left. destruct c. simpl in *.
    by subst.
Qed.

(** The delegation of [createAuthorization] is issued by the space to the
    agent, carries the name of the space as its fact, and grants exactly
    the enabled abilities of the access object (the default one when none
    is given), each on the space itself and without caveats. *)
Theorem createAuthorization_grants `{Ed25519} (spaceAccess : AccessMap)
    (now : Z) (space : Model) (options : AuthorizationOptions) :
  issuer (createAuthorization spaceAccess now space options)
  = signer_did (signer space)
  ∧ audience (createAuthorization spaceAccess now space options)
    = did (agent options)
  ∧ facts (createAuthorization spaceAccess now space options)
    = [Fact_space (name space)]
  ∧ ∀ c,
      c ∈ capabilities (createAuthorization spaceAccess now space options)
      ↔ with_ c = signer_did (signer space)
        ∧ nb c = None
        ∧ ∃ details,
            (can c, Some details) ∈ default spaceAccess (access options).
Proof.
  split; [done |]. split; [done |]. split; [done |].
  intros c.
  change (capabilities (createAuthorization spaceAccess now space options))
    with (toCapabilities
            [(signer_did (signer space),
              default spaceAccess (access options))]).
  rewrite toCapabilities_exact. split.
  - intros (Hnb & abilities & details & Hallow & Hin).
    apply list_elem_of_singleton in Hallow. injection Hallow as Hwith ->.
    split; [done |]. split; [done |]. by exists details.
  - intros (Hwith & Hnb & details & Hin). split; [done |].
    exists (default spaceAccess (access options)), details.
    split; [| done]. rewrite Hwith. by apply list_elem_of_singleton.
Qed.

(** An explicit expiration that is not [0] is the expiration of the
    delegation; in particular [Infinity] is kept. *)
Theorem createAuthorization_explicit_expiration `{Ed25519}
    (spaceAccess : AccessMap) (now : Z) (space : Model)
    (agent : Principal) (access : option AccessMap) (e : Expiration) :
  truthy e = true →
  expiration
    (createAuthorization spaceAccess now space
       (MkAuthorizationOptions agent access (Some e)))
  = e.
Proof.
  intros He. unfold createAuthorization, delegate.
  cbn -[truthy]. rewrite He. done.
Qed.

Lemma createAuthorization_explicit_expiration_witness :
  expiration
    (@createAuthorization Statements.sample_ed25519 [] 1700000000
       Statements.sample_space
       (MkAuthorizationOptions (MkPrincipal "did:key:agent")
          (Some [("space/info", Some tt)]) (Some Infinity)))
  = Infinity.
Proof.
  apply (@createAuthorization_explicit_expiration Statements.sample_ed25519
           [] 1700000000 Statements.sample_space
           (MkPrincipal "did:key:agent")
           (Some [("space/info", Some tt)]) Infinity).
  reflexivity.
Defined.

Lemma fromDelegation_returns (delegation : Delegation) (σ : Heap)
    (c : Capability) (rest : list Capability) :
  capabilities delegation = c :: rest →
  String.prefix "did:key:" (with_ c) = true →
  ∃ s σ',
    fromDelegation delegation σ = inr (s, σ')
    ∧ σ !! s = None
    ∧ (∀ l o, σ !! l = Some o → σ' !! l = Some o)
    ∧ class <$> σ' !! s = Some SharedSpaceClass
    ∧ SharedSpace_did σ' s = VString (with_ c)
    ∧ get σ' s "delegation" = VDelegation delegation
    ∧ SharedSpace_name σ' s
      = Some (VString match facts delegation with
                      | Fact_space name :: _ => name
                      | [] => ""
                      end).
Proof.
  intros Hcaps Hprefix. unfold fromDelegation, SpaceDID_read, SharedSpace_new.
  rewrite Hcaps, Hprefix.
  destruct (alloc_outcome (fact_space delegation) σ)
    as (m & σ1 & -> & Hm & Hm1 & Hkeep1).
  destruct (alloc_outcome
              (MkObj SharedSpaceClass
                     (<["delegation" := VDelegation delegation]>
                        (<["id" := VString (with_ c)]>
                           (<["meta" := VRef m]> ∅)))) σ1)
    as (s & σ' & -> & Hs & Hs1 & Hkeep2).
  exists s, σ'. split; [done |]. split.
  { destruct (σ !! s) as [o |] eqn:E; [| done].
    apply Hkeep1 in E. congruence. }
  split; [intros l o Hl; by apply Hkeep2, Hkeep1 |].
  split; [by rewrite Hs1 |].
  assert (Hmeta : get σ' s "meta" = VRef m)
    by (rewrite (get_at _ _ _ _ Hs1); done).
  unfold SharedSpace_did, SharedSpace_name. rewrite Hmeta.
  rewrite (get_at _ _ _ _ (Hkeep2 _ _ Hm1)), !(get_at _ _ _ _ Hs1).
  split; [done |]. split; [done |].
  unfold fact_space. by destruct (facts delegation) as [| [name] more].
Qed.

(** [fromDelegation] returns a space exactly for the delegations whose
    first capability is on a [did:key:] resource; it throws a [TypeError]
    when there is no capability and its own error when the resource of the
    first capability is anything else. *)
Theorem fromDelegation_accepts (delegation : Delegation) (σ : Heap) :
  ((∃ s σ', fromDelegation delegation σ = inr (s, σ'))
   ↔ ∃ c rest, capabilities delegation = c :: rest
               ∧ String.prefix "did:key:" (with_ c) = true)
  ∧ (capabilities delegation = [] →
     fromDelegation delegation σ = inl TypeError_no_capability)
  ∧ (∀ c rest,
       capabilities delegation = c :: rest →
       String.prefix "did:key:" (with_ c) = false →
       fromDelegation delegation σ = inl (Invalid_delegation (with_ c))).
Proof.
  split; [| split].
  - split.
    + intros (s & σ' & Hfrom). unfold fromDelegation, SpaceDID_read in Hfrom.
      destruct (capabilities delegation) as [| c rest]; [done |].
      exists c, rest. split; [done |].
      by destruct (String.prefix "did:key:" (with_ c)).
    + intros (c & rest & Hcaps & Hprefix).
      destruct (fromDelegation_returns delegation σ c rest Hcaps Hprefix)
        as (s & σ' & Hfrom & _).
      by exists s, σ'.
  - intros Hcaps. unfold fromDelegation. by rewrite Hcaps.
  - intros c rest Hcaps Hprefix. unfold fromDelegation, SpaceDID_read.
    by rewrite Hcaps, Hprefix.
Qed.

Lemma fromDelegation_accepts_witness :
  fromDelegation
    (MkDelegation "did:key:space" "did:key:agent"
                  [MkCap "space/info" "did:web:web3.storage" None]
                  Infinity [] [])
    ∅
  = inl (Invalid_delegation "did:web:web3.storage").
Proof.
  apply (proj2 (proj2 (fromDelegation_accepts
                         (MkDelegation "did:key:space" "did:key:agent"
                            [MkCap "space/info" "did:web:web3.storage" None]
                            Infinity [] [])
                         ∅))
           (MkCap "space/info" "did:web:web3.storage" None) []);
    reflexivity.
Defined.

(** A shared space made from a delegation that a space issued has the
    DID and the name of that space: for the recovery delegation always, for
    an authorization when the access object enables at least one ability
    (given that the DID of the space is a [did:key:]). *)
Theorem fromDelegation_of_grant `{Ed25519} (spaceAccess : AccessMap)
    (now : Z) (space : Model) (σ : Heap) :
  String.prefix "did:key:" (signer_did (signer space)) = true →
  (∀ account,
     ∃ s σ',
       fromDelegation (createRecovery now space account) σ = inr (s, σ')
       ∧ SharedSpace_did σ' s = VString (signer_did (signer space))
       ∧ SharedSpace_name σ' s = Some (VString (name space)))
  ∧ (∀ options ability details,
       (ability, Some details) ∈ default spaceAccess (access options) →
       ∃ s σ',
         fromDelegation (createAuthorization spaceAccess now space options) σ
         = inr (s, σ')
         ∧ SharedSpace_did σ' s = VString (signer_did (signer space))
         ∧ SharedSpace_name σ' s = Some (VString (name space))).
Proof.
  intros Hprefix. split.
  - intros account.
    destruct (fromDelegation_returns (createRecovery now space account) σ
                (MkCap "*" (signer_did (signer space)) None) [] eq_refl
                Hprefix)
      as (s & σ' & Hfrom & _ & _ & _ & Hdid & _ & Hname).
    by exists s, σ'.
  - intros options ability details Hin.
    destruct (createAuthorization_grants spaceAccess now space options)
      as (_ & _ & Hfacts & Hcaps).
    destruct (capabilities
                (createAuthorization spaceAccess now space options))
      as [| c rest] eqn:E.
    { exfalso.
      assert (Hc : MkCap ability (signer_did (signer space)) None ∈ [])
        by (apply Hcaps; simpl; eauto).
      by apply elem_of_nil in Hc. }
    assert (Hwith : with_ c = signer_did (signer space))
      by (apply Hcaps, list_elem_of_here).
    destruct (fromDelegation_returns
                (createAuthorization spaceAccess now space options) σ
                c rest E) as (s & σ' & Hfrom & _ & _ & _ & Hdid & _ & Hname).
    { by rewrite Hwith. }
    exists s, σ'. rewrite Hfacts in Hname. by rewrite <- Hwith.
Qed.

Lemma fromDelegation_of_grant_witness :
  ∃ s σ',
    fromDelegation
      (@createRecovery Statements.sample_ed25519 1700000000
         Statements.sample_space "did:mailto:web.mail:alice") ∅
    = inr (s, σ')
    ∧ SharedSpace_name σ' s = Some (VString "test").
Proof.
  destruct (proj1 (@fromDelegation_of_grant Statements.sample_ed25519 []
                     1700000000 Statements.sample_space ∅ eq_refl)
              "did:mailto:web.mail:alice")
    as (s & σ' & Hfrom & _ & Hname).
  exists s, σ'. split; [exact Hfrom | exact Hname].
Defined.

End SpaceGrants.


(** ** Renaming twice, and what a driver keeps *)

Module StoreCompose.
Import Store SpaceObjects SharedSpaces Memory StoreFacts.

(** What [SharedSpace.withName] returns, with the objects it allocates. *)
Lemma SharedSpace_withName_outcome (σ : Heap) (this : loc) (n : string) :
  ∃ s' meta' σ',
    SharedSpace_withName this n σ = (s', σ')
    ∧ (∀ l o, σ !! l = Some o → σ' !! l = Some o)
    ∧ σ' !! s'
      = Some (MkObj SharedSpaceClass
                    (<["delegation" := get σ this "delegation"]>
                       (<["id" := get σ this "id"]>
                          (<["meta" := VRef meta']> ∅))))
    ∧ σ' !! meta'
      = Some (MkObj PlainObject
                    (<["name" := VString n]> (meta_of σ this))).
Proof.
  unfold SharedSpace_withName, SharedSpace_new, meta_of.
  destruct (alloc_outcome
              (MkObj PlainObject
                     (<["name" := VString n]>
                        (spread σ (get σ this "meta")))) σ)
    as (m & σ1 & -> & Hm & Hm1 & Hkeep1).
  destruct (alloc_outcome
              (MkObj SharedSpaceClass
                     (<["delegation" := get σ this "delegation"]>
                        (<["id" := get σ this "id"]>
                           (<["meta" := VRef m]> ∅)))) σ1)
    as (s' & σ' & -> & Hs & Hs1 & Hkeep2).
  exists s', m, σ'. split; [done |].
  split; [intros l o Hl; by apply Hkeep2, Hkeep1 |].
  split; [done |]. by apply Hkeep2.
Qed.

Lemma SharedSpace_name_at (σ : Heap) (s meta : loc)
    (fields : gmap string Value) (o : Obj) :
  σ !! s = Some (MkObj SharedSpaceClass fields) →
  fields !! "meta" = Some (VRef meta) →
  σ !! meta = Some o →
  SharedSpace_name σ s
  = Some (nullish (default VUndefined (props o !! "name")) (VString "")).
Proof.
  intros Hs Hmeta Hm. unfold SharedSpace_name.
  rewrite (get_at _ _ _ _ Hs). simpl. rewrite Hmeta. simpl.
  by rewrite (get_at _ _ _ _ Hm).
Qed.

Lemma meta_of_at (σ : Heap) (s meta : loc) (fields : gmap string Value)
    (o : Obj) :
  σ !! s = Some (MkObj SharedSpaceClass fields) →
  fields !! "meta" = Some (VRef meta) →
  σ !! meta = Some o →
  meta_of σ s = props o.
Proof.
  intros Hs Hmeta Hm. unfold meta_of. rewrite (get_at _ _ _ _ Hs). simpl.
  rewrite Hmeta. simpl. by rewrite Hm.
Qed.

(** Renaming a shared space twice: the second space has the second name
    and the first space keeps the first; the [id], the [delegation] and
    every meta field other than [name] are those of the original space, and
    no object that existed before is changed. *)
Theorem SharedSpace_withName_twice (σ : Heap) (this : loc) (a b : string) :
  ∃ s1 σ1 s2 σ2,
    SharedSpace_withName this a σ = (s1, σ1)
    ∧ SharedSpace_withName s1 b σ1 = (s2, σ2)
    ∧ SharedSpace_name σ2 s2 = Some (VString b)
    ∧ SharedSpace_name σ2 s1 = Some (VString a)
    ∧ SharedSpace_did σ2 s2 = SharedSpace_did σ this
    ∧ get σ2 s2 "delegation" = get σ this "delegation"
    ∧ (∀ k, k ≠ "name" → meta_of σ2 s2 !! k = meta_of σ this !! k)
    ∧ (∀ l o, σ !! l = Some o → σ2 !! l = Some o).
Proof.
  destruct (SharedSpace_withName_outcome σ this a)
    as (s1 & m1 & σ1 & Hw1 & Hkeep1 & Hs1 & Hm1).
  destruct (SharedSpace_withName_outcome σ1 s1 b)
    as (s2 & m2 & σ2 & Hw2 & Hkeep2 & Hs2 & Hm2).
  exists s1, σ1, s2, σ2. split; [done |]. split; [done |].
  assert (Hmeta1 : meta_of σ1 s1 = <["name" := VString a]> (meta_of σ this))
    by (by rewrite (meta_of_at _ _ _ _ _ Hs1 eq_refl Hm1)).
  split.
  { rewrite (SharedSpace_name_at _ _ _ _ _ Hs2 eq_refl Hm2). simpl.
    by rewrite lookup_insert_eq. }
  split.
  { rewrite (SharedSpace_name_at _ _ _ _ _ (Hkeep2 _ _ Hs1) eq_refl
               (Hkeep2 _ _ Hm1)). simpl.
    by rewrite lookup_insert_eq. }
  unfold SharedSpace_did. rewrite !(get_at _ _ _ _ Hs2), !(get_at _ _ _ _ Hs1).
  split; [done |]. split; [done |]. split.
  - intros k Hk. rewrite (meta_of_at _ _ _ _ _ Hs2 eq_refl Hm2). simpl.
    rewrite Hmeta1. by rewrite !lookup_insert_ne.
  - intros l o Hl. by apply Hkeep2, Hkeep1.
Qed.

Lemma assign_other (σ : Heap) (l l' : loc) (k : string) (v : Value) :
  l ≠ l' → assign l k v σ !! l' = σ !! l'.
Proof. intros Hne. unfold assign. by apply lookup_alter_ne. Qed.

Lemma assign_same (σ : Heap) (l : loc) (k : string) (v : Value) (o : Obj) :
  σ !! l = Some o →
  assign l k v σ !! l = Some (MkObj (class o) (<[k := v]> (props o))).
Proof. intros Hl. unfold assign. by rewrite lookup_alter_eq, Hl. Qed.

Lemma save_outcome (d : MemoryDriver) (σ : Heap) (record : loc) :
  ∃ copy σ',
    save d record σ = (MkDriver (Some copy), σ')
    ∧ σ !! copy = None
    ∧ σ' !! copy = Some (MkObj PlainObject (spread σ (VRef record)))
    ∧ (∀ l o, σ !! l = Some o → σ' !! l = Some o).
Proof.
  unfold save.
  destruct (alloc_outcome (MkObj PlainObject (spread σ (VRef record))) σ)
    as (copy & σ' & -> & Hfresh & Hcopy & Hkeep).
  by exists copy, σ'.
Qed.

(** [save] stores a copy: assigning to a property of the record after it
    was saved changes neither what [load] returns nor the object it
    returns. *)
Theorem save_isolates (d : MemoryDriver) (σ : Heap) (record : loc)
    (o : Obj) (k : string) (v : Value) :
  σ !! record = Some o →
  ∃ d' σ',
    save d record σ = (d', σ')
    ∧ load d' (assign record k v σ') = load d' σ'
    ∧ ∀ copy, load d' σ' = Some copy →
              assign record k v σ' !! copy
              = Some (MkObj PlainObject (props o)).
Proof.
  intros Hrecord.
  destruct (save_outcome d σ record) as (copy & σ' & -> & Hfresh & Hcopy & _).
  exists (MkDriver (Some copy)), σ'. split; [done |].
  assert (Hne : record ≠ copy) by (intros ->; congruence).
  assert (Hsame : assign record k v σ' !! copy = σ' !! copy)
    by (by apply assign_other).
  split.
  - unfold load, keys_length. simpl. by rewrite Hsame.
  - intros copy' Hload. unfold load in Hload. simpl in Hload.
    destruct (Nat.eqb (keys_length σ' copy) 0); [done |].
    injection Hload as <-. rewrite Hsame, Hcopy. simpl. by rewrite Hrecord.
Qed.

Lemma save_isolates_witness :
  ∃ d' σ',
    save new 2%positive Statements.sample_heap = (d', σ')
    ∧ load d' (assign 2%positive "name" (VString "changed") σ')
      = load d' σ'.
Proof.
  destruct (save_isolates new Statements.sample_heap 2%positive
              (MkObj PlainObject
                     (<["name" := VString "old"]>
                        (<["type" := VString "space"]> ∅)))
              "name" (VString "changed"))
    as (d' & σ' & Hsave & Hload & _).
  - vm_compute. reflexivity.
  - exists d', σ'. split; [exact Hsave | exact Hload].
Defined.

(** [load] hands out the object the driver holds, not a copy of it: a
    property assigned through the loaded reference is there at the next
    [load], which returns the same reference. *)
Theorem load_aliases (d : MemoryDriver) (σ : Heap) (copy : loc)
    (k : string) (v : Value) :
  load d σ = Some copy →
  load d (assign copy k v σ) = Some copy
  ∧ get (assign copy k v σ) copy k = v.
Proof.
  unfold load, keys_length. destruct (data d) as [l |]; [| done].
  destruct (σ !! l) as [o |] eqn:Hl; [| done].
  destruct (Nat.eqb_spec (size (props o)) 0) as [| Hsize]; [done |].
  intros [= ->]. rewrite (assign_same _ _ _ _ _ Hl). simpl. split.
  - destruct (Nat.eqb_spec (size (<[k := v]> (props o))) 0) as [Hzero |];
      [| done].
    apply map_size_empty_iff in Hzero.
    apply (f_equal (fun m : gmap string Value => m !! k)) in Hzero.
    by rewrite lookup_insert_eq, lookup_empty in Hzero.
  - unfold get. rewrite (assign_same _ _ _ _ _ Hl). simpl.
    by rewrite lookup_insert_eq.
Qed.

Lemma load_aliases_witness :
  load (MkDriver (Some 2%positive))
       (assign 2%positive "name" (VString "changed") Statements.sample_heap)
  = Some 2%positive.
Proof.
  apply (load_aliases (MkDriver (Some 2%positive)) Statements.sample_heap
           2%positive "name" (VString "changed")).
  vm_compute. reflexivity.
Defined.

End StoreCompose.


(** ** Recovering a space from its mnemonic *)

Module SpaceRecovery.
Import Ucan Space SpaceFacts.

Section Recovery.
Context `{Ed25519} `{Bip39}.

Hypothesis bip39_roundtrip :
  ∀ entropy : bytes,
    length entropy = 32 →
    ∃ mnemonic,
      entropyToMnemonic entropy wordlist = Some mnemonic
      ∧ mnemonicToEntropy mnemonic wordlist = Some entropy.

(** The space recovered from the mnemonic of an owned space is an owned
    space with the same signer, hence the same DID, and exporting it again
    gives the same mnemonic. *)
Theorem mnemonic_keeps_identity (space : Model) (name : string) :
  OwnedSpace space →
  ∃ mnemonic recovered,
    toMnemonic space = Some mnemonic
    ∧ fromMnemonic mnemonic name = Some recovered
    ∧ OwnedSpace recovered
    ∧ signer recovered = signer space
    ∧ signer_did (signer recovered) = signer_did (signer space)
    ∧ toMnemonic recovered = Some mnemonic.
Proof.
  intros Howned. destruct (OwnedSpace_derived space Howned) as [Hlen Hderive].
  destruct (bip39_roundtrip _ Hlen) as (mnemonic & Hto & Hfrom).
  assert (Hrecovered :
            fromMnemonic mnemonic name = Some (MkModel (signer space) name))
    by (unfold fromMnemonic; by rewrite Hfrom, Hderive).
  exists mnemonic, (MkModel (signer space) name).
  split; [done |]. split; [done |].
  split; [by eapply Owned_fromMnemonic |]. done.
Qed.
End Recovery.

Lemma mnemonic_keeps_identity_witness :
  ∃ mnemonic recovered,
    @toMnemonic Statements.sample_bip39 Statements.sample_space
    = Some mnemonic
    ∧ @fromMnemonic Statements.sample_ed25519 Statements.sample_bip39
        mnemonic "import"
      = Some recovered
    ∧ signer recovered = signer Statements.sample_space.
Proof.
  destruct (@mnemonic_keeps_identity Statements.sample_ed25519
              Statements.sample_bip39 sample_bip39_roundtrip
              Statements.sample_space "import" sample_space_owned)
    as (mnemonic & recovered & Hto & Hfrom & _ & Hsigner & _).
  exists mnemonic, recovered.
  split; [exact Hto |]. split; [exact Hfrom | exact Hsigner].
Defined.

End SpaceRecovery.


(** ** Polling for a receipt *)

Module ReceiptsFacts.
Import Access Receipts.
Local Open Scope nat_scope.

Section Polling.
Context {Receipt : Type}.
Implicit Types (this : Client Receipt) (taskCid : Link) (r : Receipt).

Lemma get_requests this taskCid n : (get this taskCid n).2 = S n.
Proof.
  unfold get. destruct (fetch this n) as [| receipts]; [done |].
  by destruct (receipts !! toString taskCid).
Qed.

Lemma get_miss this taskCid n :
  misses this taskCid n →
  get this taskCid n = (Err (MkError "ReceiptNotFound" "" None), S n).
Proof. intros (receipts & Hfetch & Hnone). unfold get. by rewrite Hfetch, Hnone. Qed.

(** Missed attempts are retried: after [i] misses the loop stands at
    request [n + i] with [i] fewer retries left. *)
Lemma poll_attempts_skip this taskCid (i left n : nat) :
  (∀ j, j < i → misses this taskCid (n + j)) →
  poll_attempts this taskCid (i + left) n
  = poll_attempts this taskCid left (n + i).
Proof.
  revert n. induction i as [| i IH]; intros n Hmiss.
  - by rewrite Nat.add_0_r.
  - simpl. rewrite (get_miss this taskCid n).
    2: { rewrite <- (Nat.add_0_r n). apply Hmiss. lia. }
    simpl. rewrite IH.
    + f_equal. lia.
    + intros j Hj. replace (S n + j) with (n + S j) by lia. apply Hmiss. lia.
Qed.

Lemma poll_attempts_step this taskCid (left n : nat) :
  poll_attempts this taskCid left n
  = match get this taskCid n with
    | (Ok receipt, n') => (Resolved receipt, n')
    | (Err error, n') =>
        if String.eqb (error_name error) "ReceiptNotFound" then
          match left with
          | O =>
              (Rejected
                 (MkError "Error" "blob/accept receipt not yet available"
                          None),
               n')
          | S left' => poll_attempts this taskCid left' n'
          end
        else
          (Rejected
             (MkError "Error" "failed to fetch blob/accept receipt"
                      (Some error)),
           n')
    end.
Proof. by destruct left. Qed.

(** [poll] resolves with the receipt of the first response that holds one
    for the task, when the responses before it held none and it comes
    within [retries] retries; the request that found it is the last one
    made. *)
Theorem poll_finds this taskCid (n i : nat) (receipts : gmap string Receipt)
    r :
  i ≤ retries this →
  (∀ j, j < i → misses this taskCid (n + j)) →
  fetch this (n + i) = Message receipts →
  receipts !! toString taskCid = Some r →
  poll this taskCid n = (Resolved r, S (n + i)).
Proof.
  intros Hi Hmiss Hfetch Hsome. unfold poll.
  replace (retries this) with (i + (retries this - i)) by lia.
  rewrite (poll_attempts_skip _ _ _ _ _ Hmiss), poll_attempts_step.
  unfold get. by rewrite Hfetch, Hsome.
Qed.

(** When [retries + 1] responses in a row hold no receipt for the task,
    [poll] rejects with [blob/accept receipt not yet available] after
    exactly [retries + 1] requests. *)
Theorem poll_gives_up this taskCid (n : nat) :
  (∀ j, j ≤ retries this → misses this taskCid (n + j)) →
  poll this taskCid n
  = (Rejected (MkError "Error" "blob/accept receipt not yet available" None),
     S (n + retries this)).
Proof.
  intros Hmiss. unfold poll.
  replace (retries this) with (retries this + 0) at 1 by lia.
  rewrite poll_attempts_skip by (intros j Hj; apply Hmiss; lia).
  rewrite poll_attempts_step, get_miss by (apply Hmiss; lia). done.
Qed.

(** A response that is not [ok] ends the polling at once, retries left or
    not: [poll] rejects with [failed to fetch blob/accept receipt], caused
    by the error of [get], and makes no further request. *)
Theorem poll_aborts this taskCid (n i : nat) :
  i ≤ retries this →
  (∀ j, j < i → misses this taskCid (n + j)) →
  fetch this (n + i) = Status_not_ok →
  poll this taskCid n
  = (Rejected
       (MkError "Error" "failed to fetch blob/accept receipt"
          (Some (MkError "Error"
                   ("no receipt available for requested task "
                      +:+ toString taskCid) None))),
     S (n + i)).
Proof.
  intros Hi Hmiss Hfetch. unfold poll.
  replace (retries this) with (i + (retries this - i)) by lia.
  rewrite (poll_attempts_skip _ _ _ _ _ Hmiss), poll_attempts_step.
  unfold get. by rewrite Hfetch.
Qed.

Lemma poll_attempts_bounds this taskCid (left n : nat) :
  n < (poll_attempts this taskCid left n).2 ≤ S (n + left)
  ∧ ∀ r, (poll_attempts this taskCid left n).1 = Resolved r →
         ∃ receipts,
           fetch this (pred (poll_attempts this taskCid left n).2)
           = Message receipts
           ∧ receipts !! toString taskCid = Some r.
Proof.
  revert n. induction left as [| left IH]; intros n.
  - simpl. unfold get. destruct (fetch this n) as [| receipts] eqn:Hfetch.
    + simpl. split; [lia | done].
    + destruct (receipts !! toString taskCid) as [r0 |] eqn:Hr; simpl.
      * split; [lia |]. intros r [= <-]. rewrite Hfetch. eauto.
      * split; [lia | done].
  - rewrite poll_attempts_step. unfold get.
    destruct (fetch this n) as [| receipts] eqn:Hfetch.
    + simpl. split; [lia | done].
    + destruct (receipts !! toString taskCid) as [r0 |] eqn:Hr; simpl.
      * split; [lia |]. intros r [= <-]. rewrite Hfetch. eauto.
      * destruct (IH (S n)) as [Hbound Hsound]. split; [lia | done].
Qed.

(** [poll] makes at least one and at most [retries + 1] requests, and a
    receipt it resolves with is the one the last response holds for the
    task that was asked for. *)
Theorem poll_bounded this taskCid (n : nat) :
  n < (poll this taskCid n).2 ≤ S (n + retries this)
  ∧ ∀ r, (poll this taskCid n).1 = Resolved r →
         ∃ receipts,
           fetch this (pred (poll this taskCid n).2) = Message receipts
           ∧ receipts !! toString taskCid = Some r.
Proof. apply poll_attempts_bounds. Qed.

End Polling.

Lemma sample_client_misses (retries j : nat) :
  j < 2 → misses (sample_client retries) (MkLink "bafytask") (0 + j).
Proof.
  intros Hj. exists (<["bafyother" := "other receipt"]> ∅).
  destruct j as [| [| j]]; [done | done | lia].
Defined.

Lemma poll_finds_witness :
  poll (sample_client 3) (MkLink "bafytask") 0
  = (Resolved "task receipt", 3).
Proof.
  apply (poll_finds (sample_client 3) (MkLink "bafytask") 0 2
           (<["bafytask" := "task receipt"]> ∅) "task receipt").
  - simpl. lia.
  - apply sample_client_misses.
  - reflexivity.
  - reflexivity.
Defined.

Lemma poll_gives_up_witness :
  poll (sample_client 1) (MkLink "bafytask") 0
  = (Rejected (MkError "Error" "blob/accept receipt not yet available" None),
     2).
Proof.
  apply (poll_gives_up (sample_client 1) (MkLink "bafytask") 0).
  intros j Hj. apply sample_client_misses. simpl in Hj. lia.
Defined.

Lemma poll_aborts_witness :
  poll (sample_client 5) (MkLink "bafyother") 2
  = (Rejected
       (MkError "Error" "failed to fetch blob/accept receipt"
          (Some (MkError "Error"
                   "no receipt available for requested task bafyother"
                   None))),
     4).
Proof.
  apply (poll_aborts (sample_client 5) (MkLink "bafyother") 2 1).
  - simpl. lia.
  - intros j Hj. exists (<["bafytask" := "task receipt"]> ∅).
    destruct j as [| j]; [done | lia].
  - reflexivity.
Defined.

End ReceiptsFacts.


(** ** The storefront service *)

Module StorefrontFacts.
Import Utils Access Ucan Storefront.

Section Service.
Context {Queue Store : Type}.
Variable can : string.
Variable link : Invocation → Link.
Implicit Types (context : Context Queue Store) (st : Queue * Store)
  (capability : ParsedCapability FilecoinAddNb).

Lemma claim_self capability context now st :
  did (id context) = cap_with capability →
  claim can link capability context now st
  = queueHandler (piece (cap_nb capability)) (content (cap_nb capability))
                 context now st.
Proof. intros Hself. unfold claim. by rewrite Hself, String.eqb_refl. Qed.

Lemma claim_other capability context now st :
  did (id context) ≠ cap_with capability →
  claim can link capability context now st
  = queueAdd can link (piece (cap_nb capability))
             (content (cap_nb capability)) context now st.
Proof.
  intros Hother. unfold claim.
  by destruct (String.eqb_spec (did (id context)) (cap_with capability)).
Qed.

(** What a result of [claim] tells.  [accepted]: the capability is on the
    service's own DID, the piece was put in the piece store and the queue
    is as before.  [queued]: the capability is on another resource, the
    piece was added to the queue, the store is as before, and the joined
    effect is the service's own invocation for the same piece and content.
    A [StoreOperationFailed] or [QueueOperationFailed] carries the message
    of the failed operation, and leaves the other state as before. *)
Theorem claim_result_tells capability context now st result st' :
  claim can link capability context now st = (result, st') →
  let record := MkPieceRecord (piece (cap_nb capability))
                              (content (cap_nb capability)) now in
  match result with
  | Claim_ok status p join =>
      p = piece (cap_nb capability)
      ∧ ((status = "accepted" ∧ join = None
          ∧ did (id context) = cap_with capability
          ∧ st'.1 = st.1
          ∧ pieceStore_put context record st.2 = (Done, st'.2))
         ∨ (status = "queued"
            ∧ join = Some (link (effect_of can context
                                   (piece (cap_nb capability))
                                   (content (cap_nb capability))))
            ∧ did (id context) ≠ cap_with capability
            ∧ st'.2 = st.2
            ∧ addQueue_add context record st.1 = (Done, st'.1)))
  | Claim_error (StoreOperationFailed message) =>
      did (id context) = cap_with capability
      ∧ st'.1 = st.1
      ∧ pieceStore_put context record st.2 = (Failed message, st'.2)
  | Claim_error (QueueOperationFailed message) =>
      did (id context) ≠ cap_with capability
      ∧ st'.2 = st.2
      ∧ addQueue_add context record st.1 = (Failed message, st'.1)
  end.
Proof.
  intros Hclaim record.
  destruct (decide (did (id context) = cap_with capability)) as [Hself | Hother].
  - rewrite (claim_self _ _ _ _ Hself) in Hclaim. unfold queueHandler in Hclaim.
    fold record in Hclaim.
    destruct (pieceStore_put context record st.2) as [[| message] store'];
      injection Hclaim as <- <-; simpl.
    + split; [done |]. left. done.
    + done.
  - rewrite (claim_other _ _ _ _ Hother) in Hclaim. unfold queueAdd in Hclaim.
    fold record in Hclaim.
    destruct (addQueue_add context record st.1) as [[| message] queue'];
      injection Hclaim as <- <-; simpl.
    + split; [done |]. right. done.
    + done.
Qed.

(** The effect joined to a queued claim is a [filecoin/add] of the service
    to itself; when the service runs it, the claim takes the handler path:
    the same piece and content go to the piece store and the queue is not
    touched. *)
Theorem queued_effect_is_handled capability context now st queue' :
  did (id context) ≠ cap_with capability →
  addQueue_add context
    (MkPieceRecord (piece (cap_nb capability)) (content (cap_nb capability))
                   now) st.1
  = (Done, queue') →
  let fx := effect_of can context (piece (cap_nb capability))
                      (content (cap_nb capability)) in
  claim can link capability context now st
  = (Claim_ok "queued" (piece (cap_nb capability)) (Some (link fx)),
     (queue', st.2))
  ∧ inv_issuer fx = did (id context)
  ∧ inv_audience fx = did (id context)
  ∧ ∀ later st2,
      claim can link (inv_capability fx) context later st2
      = queueHandler (piece (cap_nb capability))
                     (content (cap_nb capability)) context later st2.
Proof.
  intros Hother Hadd fx. split; [| split; [done | split; [done |]]].
  - rewrite (claim_other _ _ _ _ Hother). unfold queueAdd. by rewrite Hadd.
  - intros later st2. by rewrite claim_self.
Qed.

End Service.

Lemma claim_result_tells_witness :
  did (id sample_context) = "did:web:web3.storage"
  ∧ pieceStore_put sample_context
      (MkPieceRecord (MkLink "bagapiece") (MkLink "bafycontent") 1700000000)
      []
    = (Done,
       [MkPieceRecord (MkLink "bagapiece") (MkLink "bafycontent") 1700000000]).
Proof.
  pose proof (claim_result_tells "filecoin/add"
                (fun fx => MkLink (inv_issuer fx))
                (MkCapability "filecoin/add" "did:web:web3.storage"
                   (MkFilecoinAddNb (MkLink "bagapiece")
                                    (MkLink "bafycontent")))
                sample_context 1700000000 ([], [])
                (Claim_ok "accepted" (MkLink "bagapiece") None)
                ([],
                 [MkPieceRecord (MkLink "bagapiece") (MkLink "bafycontent")
                                1700000000])
                eq_refl) as [_ [Haccepted | Hqueued]].
  - destruct Haccepted as (_ & _ & Hself & _ & Hput).
    split; [exact Hself | exact Hput].
  - destruct Hqueued as (Hstatus & _). discriminate Hstatus.
Defined.

Lemma queued_effect_is_handled_witness :
  claim "filecoin/add" (fun fx => MkLink (inv_issuer fx))
    (MkCapability "filecoin/add" "did:key:space"
       (MkFilecoinAddNb (MkLink "bagapiece") (MkLink "bafycontent")))
    sample_context 1700000000 ([], [])
  = (Claim_ok "queued" (MkLink "bagapiece")
       (Some (MkLink "did:web:web3.storage")),
     ([MkPieceRecord (MkLink "bagapiece") (MkLink "bafycontent") 1700000000],
      [])).
Proof.
  apply (queued_effect_is_handled "filecoin/add"
           (fun fx => MkLink (inv_issuer fx))
           (MkCapability "filecoin/add" "did:key:space"
              (MkFilecoinAddNb (MkLink "bagapiece") (MkLink "bafycontent")))
           sample_context 1700000000 ([], [])
           [MkPieceRecord (MkLink "bagapiece") (MkLink "bafycontent")
                          1700000000]).
  - simpl. discriminate.
  - reflexivity.
Defined.

End StorefrontFacts.


(** ** The handler of upload/add *)

Module UploadAddFacts.
Import Utils Access Ucan UploadAdd.
Local Open Scope nat_scope.



Section Service.
Context {Table Inserted ProviderError : Type}.
Implicit Types (context : Context Table Inserted ProviderError)
  (capability : ParsedCapability UploadAddNb)
  (invocation : UploadInvocation) (table : Table).





End Service.



Example uploadAdd_failing_bucket :
  uploadAdd sample_context_failing (sample_upload "did:key:space")
            sample_invocation []
  = (Rejects,
     [MkUploadRecord "did:key:space" (MkLink "bafyroot")
        (Some [MkLink "bagshard1"; MkLink "bagshard2"])
        "did:key:agent" (MkLink "bafyinvocation")],
     [MkWritten "bafyroot" "bagshard1" false 4;
      MkWritten "bafyroot" "bagshard2" false 4]).
Proof. reflexivity. Qed.

Example uploadAdd_sample :
  uploadAdd sample_context (sample_upload "did:key:space") sample_invocation
            []
  = (Return_ok
       (MkUploadRecord "did:key:space" (MkLink "bafyroot")
          (Some [MkLink "bagshard1"; MkLink "bagshard2"])
          "did:key:agent" (MkLink "bafyinvocation")),
     [MkUploadRecord "did:key:space" (MkLink "bafyroot")
        (Some [MkLink "bagshard1"; MkLink "bagshard2"])
        "did:key:agent" (MkLink "bafyinvocation")],
     [MkWritten "bafyroot" "bagshard1" true 3;
      MkWritten "bafyroot" "bagshard2" true 3]).
Proof. reflexivity. Qed.

End UploadAddFacts.


(** ** The mocked services of the tests *)

Module MocksFacts.
Import Mocks.
Local Open Scope Z_scope.

Section Handlers.
Context {Args R : Type}.
Implicit Types (handler : Handler Args R) (this : Counted)
  (impl : gmap Method (Handler Args R))
  (service : gmap Method (CountedFn Args R)).

Lemma countedFn_all_from handler (calls : list Args) this :
  0 ≤ callCount this ≤ 2 ^ 53 →
  (countedFn_all handler calls this).1 = map handler calls
  ∧ callCount (countedFn_all handler calls this).2
    = Z.min (callCount this + Z.of_nat (length calls)) (2 ^ 53)
  ∧ called (countedFn_all handler calls this).2
    = (called this || negb (Nat.eqb (length calls) 0))%bool.
Proof.
  revert this. induction calls as [| args rest IH]; intros this Hrange.
  - simpl. split; [done |]. split; [lia |]. by rewrite orb_false_r.
  - cbn [countedFn_all countedFn called callCount].
    set (next := MkCounted true (increment (callCount this))).
    assert (Hnext : 0 ≤ callCount next ≤ 2 ^ 53).
    { unfold next, increment. simpl.
      destruct (Z.ltb_spec (callCount this) (2 ^ 53)); lia. }
    specialize (IH next Hnext).
    destruct (countedFn_all handler rest next) as [outcomes final].
    simpl in *. destruct IH as (Houts & Hcount & Hcalled).
    split; [by rewrite Houts |]. split.
    + rewrite Hcount. unfold increment.
      destruct (Z.ltb_spec (callCount this) (2 ^ 53)); lia.
    + rewrite Hcalled. by rewrite orb_true_r.
Qed.

(** A counted function passes every call on to the function it counts
    for, whatever the call comes to, and after [n] calls its [callCount] is
    [n] (an integer below [2^53] being counted exactly) and [called] tells
    whether [n] is positive: calls that throw are counted too. *)
Theorem withCallCount_counts handler (calls : list Args) :
  (countedFn_all handler calls withCallCount).1 = map handler calls
  ∧ callCount (countedFn_all handler calls withCallCount).2
    = Z.min (Z.of_nat (length calls)) (2 ^ 53)
  ∧ called (countedFn_all handler calls withCallCount).2
    = negb (Nat.eqb (length calls) 0).
Proof.
  destruct (countedFn_all_from handler calls withCallCount)
    as (Houts & Hcount & Hcalled); [simpl; lia |].
  split; [done |]. split; [by rewrite Hcount |]. by rewrite Hcalled.
Qed.

Lemma mockService_lookup (methods : list Method) impl (m : Method) :
  mockService methods impl !! m
  = if decide (m ∈ methods)
    then Some (MkCountedFn (default notImplemented (impl !! m))
                           withCallCount)
    else None.
Proof.
  unfold mockService. induction methods as [| m0 rest IH].
  - cbn [map]. rewrite list_to_map_nil, lookup_empty.
    case_decide as Hin; [by apply elem_of_nil in Hin | done].
  - cbn [map]. rewrite list_to_map_cons.
    destruct (decide (m0 = m)) as [-> | Hne].
    + rewrite lookup_insert_eq.
      destruct (decide (m ∈ m :: rest)) as [_ | Hout]; [done |].
      exfalso. apply Hout, list_elem_of_here.
    + rewrite lookup_insert_ne by done. rewrite IH.
      destruct (decide (m ∈ rest)) as [Hin | Hout];
        destruct (decide (m ∈ m0 :: rest)) as [Hin' | Hout']; try done.
      * exfalso. by apply Hout', list_elem_of_further.
      * exfalso. apply elem_of_cons in Hin' as [? | ?]; congruence.
Qed.

(** A mocked service exposes the methods of its table and no other.  A
    method of the table that [impl] gives is called with the arguments; one
    that [impl] lacks throws [not implemented].  Either way the call is
    counted on that method and on no other. *)
Theorem mockService_invoke (methods : list Method) impl (m : Method)
    (args : Args) :
  (m ∉ methods → invoke m args (mockService methods impl) = None)
  ∧ (m ∈ methods →
     ∃ service',
       invoke m args (mockService methods impl)
       = Some (match impl !! m with
               | Some handler => handler args
               | None => Throws "not implemented"
               end, service')
       ∧ counted <$> service' !! m = Some (MkCounted true 1)
       ∧ ∀ m', m' ≠ m →
               service' !! m' = mockService methods impl !! m').
Proof.
  unfold invoke. rewrite mockService_lookup. split.
  - intros Hout. by rewrite decide_False.
  - intros Hin. rewrite decide_True by done. simpl.
    eexists. split; [| split].
    + f_equal. f_equal. by destruct (impl !! m).
    + by rewrite lookup_insert_eq.
    + intros m' Hne. by rewrite lookup_insert_ne.
Qed.

End Handlers.

Lemma mockService_invoke_witness :
  invoke ("store", "add") tt
         (mockService w3up_client_methods
            (<[("upload", "add") := fun _ : unit => Returns 1%nat]> ∅))
  ≠ None
  ∧ invoke ("blob", "add") tt
           (mockService w3up_client_methods
              (<[("blob", "add") := fun _ : unit => Returns 1%nat]> ∅))
    = None.
Proof.
  split.
  - destruct (proj2 (mockService_invoke w3up_client_methods
                       (<[("upload", "add") := fun _ : unit => Returns 1%nat]> ∅)
                       ("store", "add") tt))
      as (service' & Hinvoke & _).
    + apply list_elem_of_In. simpl. tauto.
    + rewrite Hinvoke. discriminate.
  - apply (proj1 (mockService_invoke w3up_client_methods
                    (<[("blob", "add") := fun _ : unit => Returns 1%nat]> ∅)
                    ("blob", "add") tt)).
    intros Hin. apply list_elem_of_In in Hin. simpl in Hin.
    repeat (destruct Hin as [Hin | Hin]; [discriminate Hin |]).
    exact Hin.
Defined.

Example countedFn_throwing :
  countedFn_all (@notImplemented unit nat) [tt; tt; tt] withCallCount
  = ([Throws "not implemented"; Throws "not implemented";
      Throws "not implemented"],
     MkCounted true 3).
Proof. reflexivity. Qed.

End MocksFacts.
